(** * Frame-fence synchronisation of the minimal D3D12 program

    A shallow embedding of [src/D3D12-Tutorial/main.cpp]: the fence helpers
    [Signal], [WaitForFenceValue] and [Flush], and the command-line parser
    [ParseCommandLineArgs].  The Direct3D 12 / Win32 objects the helpers
    talk to (command queue, fence, event handle) are an interface; the code
    is written against that interface and logs every call it makes. *)

From stdpp Require Import base numbers list strings.
From Stdlib Require Import ZArith Lia Ascii.

Local Open Scope Z_scope.

(** ** Machine integers *)

(** [uint64_t]: arithmetic is modulo 2^64. *)
Definition UINT64_MAX : Z := 2 ^ 64 - 1.
Definition wrap64 (z : Z) : Z := z mod 2 ^ 64.

(** [uint32_t], [DWORD], [UINT]: modulo 2^32. *)
Definition wrap32 (z : Z) : Z := z mod 2 ^ 32.

(** [static_cast<DWORD>(x)] of a 64-bit signed count. *)
Definition to_DWORD (z : Z) : Z := wrap32 z.

(** [std::chrono::milliseconds::max()]: the largest value of the 64-bit
    signed representation of the duration. *)
Definition milliseconds_max : Z := 2 ^ 63 - 1.

(** Win32 constants used through [Windows.h]. *)
Definition INFINITE : Z := 4294967295.      (* 0xFFFFFFFF *)
Definition WAIT_OBJECT_0 : Z := 0.
Definition WAIT_TIMEOUT : Z := 258.

Definition HRESULT := Z.
Definition HANDLE := Z.
Definition S_OK : HRESULT := 0.
Definition DXGI_ERROR_DEVICE_REMOVED : HRESULT := -2005270523. (* 0x887A0005 *)

(** The [FAILED] macro: an HRESULT is a failure when it is negative. *)
Definition FAILED (hr : HRESULT) : bool := hr <? 0.

(** ** Globals of main.cpp *)

Definition g_NumFrames : Z := 3.

Record Globals := mkGlobals {
  g_UseWARP : bool;
  g_ClientWidth : Z;
  g_ClientHeight : Z;
  g_CurrentBackBufferIndex : Z;
  g_FenceValue : Z;
  g_FrameFenceValues : list Z
}.

(** The initial values of the globals: the explicit initialisers of
    main.cpp, and zero for the statics without one. *)
Definition initial_globals : Globals :=
  {| g_UseWARP := false;
     g_ClientWidth := 1024;
     g_ClientHeight := 768;
     g_CurrentBackBufferIndex := 0;
     g_FenceValue := 0;
     g_FrameFenceValues := replicate (Z.to_nat g_NumFrames) 0 |}.

Definition set_UseWARP (b : bool) (g : Globals) : Globals :=
  mkGlobals b (g_ClientWidth g) (g_ClientHeight g)
            (g_CurrentBackBufferIndex g) (g_FenceValue g) (g_FrameFenceValues g).
Definition set_ClientWidth (z : Z) (g : Globals) : Globals :=
  mkGlobals (g_UseWARP g) z (g_ClientHeight g)
            (g_CurrentBackBufferIndex g) (g_FenceValue g) (g_FrameFenceValues g).
Definition set_FenceValue (z : Z) (g : Globals) : Globals :=
  mkGlobals (g_UseWARP g) (g_ClientWidth g) (g_ClientHeight g)
            (g_CurrentBackBufferIndex g) z (g_FrameFenceValues g).

(** ** The execution engine *)

(** The calls main.cpp makes on the command queue, the fence and the event
    handle, each with the answer it got. *)
Inductive call : Type :=
| CallSignal (value : Z) (hr : HRESULT)
    (* ID3D12CommandQueue::Signal(fence, value) *)
| CallGetCompletedValue (completed : Z)
    (* ID3D12Fence::GetCompletedValue() *)
| CallSetEventOnCompletion (value : Z) (hEvent : HANDLE) (hr : HRESULT)
    (* ID3D12Fence::SetEventOnCompletion(value, hEvent) *)
| CallWaitForSingleObject (hEvent : HANDLE) (dwMilliseconds : Z) (ret : option Z).
    (* ::WaitForSingleObject(hEvent, dwMilliseconds); None: it never returns *)

(** The host side of those calls, over a state [W] of the device and the
    operating system.  [GetCompletedValue] is a query; the blocking wait
    may never return. *)
Class Engine (W : Type) := {
  Queue_Signal : Z -> W -> HRESULT * W;
  Fence_GetCompletedValue : W -> Z;
  Fence_SetEventOnCompletion : Z -> HANDLE -> W -> HRESULT * W;
  Os_WaitForSingleObject : HANDLE -> Z -> W -> option (Z * W)
}.

(** ** Program state and the monad of the helpers *)

Inductive exn : Type :=
| DeviceError (hr : HRESULT).

Inductive outcome (A : Type) : Type :=
| Returned (a : A)
| Thrown (e : exn)
| Blocked.                      (* the calling thread never resumes *)
Arguments Returned {A} a.
Arguments Thrown {A} e.
Arguments Blocked {A}.

Record State (W : Type) := mkState {
  globals : Globals;
  calls : list call;
  world : W
}.
Arguments mkState {W} _ _ _.
Arguments globals {W} _.
Arguments calls {W} _.
Arguments world {W} _.

Definition M (W A : Type) : Type := State W -> outcome A * State W.

Definition ret {W A} (a : A) : M W A := fun s => (Returned a, s).

Definition bind {W A B} (m : M W A) (k : A -> M W B) : M W B :=
  fun s =>
    match m s with
    | (Returned a, s') => k a s'
    | (Thrown e, s') => (Thrown e, s')
    | (Blocked, s') => (Blocked, s')
    end.

Definition throw {W A} (e : exn) : M W A := fun s => (Thrown e, s).

Notation "'let!' x ':=' m 'in' k" := (bind m (fun x => k))
  (at level 10, x name, m at level 100, k at level 200).
Notation "'do!' m 'in' k" := (bind m (fun _ => k))
  (at level 10, m at level 100, k at level 200).

Section Helpers.
Context {W : Type} `{Engine W}.

Definition log (c : call) (s : State W) : State W :=
  mkState (globals s) (calls s ++ [c]) (world s).

(** The execution counter, and the state with the counter overwritten. *)
Definition counter (s : State W) : Z := g_FenceValue (globals s).
Definition with_counter (c : Z) (s : State W) : State W :=
  mkState (set_FenceValue c (globals s)) (calls s) (world s).

(** [commandQueue->Signal(fence.Get(), value)] *)
Definition commandQueue_Signal (value : Z) : M W HRESULT :=
  fun s =>
    let '(hr, w) := Queue_Signal value (world s) in
    (Returned hr, mkState (globals s) (calls s ++ [CallSignal value hr]) w).

(** [fence->GetCompletedValue()] *)
Definition fence_GetCompletedValue : M W Z :=
  fun s =>
    let c := Fence_GetCompletedValue (world s) in
    (Returned c, log (CallGetCompletedValue c) s).

(** [fence->SetEventOnCompletion(value, hEvent)] *)
Definition fence_SetEventOnCompletion (value : Z) (hEvent : HANDLE) : M W HRESULT :=
  fun s =>
    let '(hr, w) := Fence_SetEventOnCompletion value hEvent (world s) in
    (Returned hr,
     mkState (globals s) (calls s ++ [CallSetEventOnCompletion value hEvent hr]) w).

(** [::WaitForSingleObject(hEvent, dwMilliseconds)] *)
Definition WaitForSingleObject (hEvent : HANDLE) (dwMilliseconds : Z) : M W Z :=
  fun s =>
    match Os_WaitForSingleObject hEvent dwMilliseconds (world s) with
    | Some (r, w) =>
        (Returned r,
         mkState (globals s)
                 (calls s ++ [CallWaitForSingleObject hEvent dwMilliseconds (Some r)]) w)
    | None =>
        (Blocked, log (CallWaitForSingleObject hEvent dwMilliseconds None) s)
    end.

(** Modelled from the spec: [ThrowIfFailed] is declared in Helpers.h,
    which main.cpp includes.  The spec describes it as
    "fails with DeviceError": a failed HRESULT raises an exception that
    carries it, a successful one lets the caller continue. *)
Definition ThrowIfFailed (hr : HRESULT) : M W unit :=
  if FAILED hr then throw (DeviceError hr) else ret tt.

(** [++fenceValue] on the [uint64_t&] parameter, which every caller binds
    to [g_FenceValue]; yields the incremented value. *)
Definition pre_increment_fenceValue : M W Z :=
  fun s =>
    let v := wrap64 (g_FenceValue (globals s) + 1) in
    (Returned v, mkState (set_FenceValue v (globals s)) (calls s) (world s)).

(** main.cpp:533, [Signal(commandQueue, fence, fenceValue)].  The command
    queue and the fence are the engine's; the counter passed by reference
    is [g_FenceValue]. *)
Definition Signal : M W Z :=
  let! fenceValueForSignal := pre_increment_fenceValue in
  let! hr := commandQueue_Signal fenceValueForSignal in
  do! ThrowIfFailed hr in
  ret fenceValueForSignal.

(** main.cpp:544, [WaitForFenceValue(fence, fenceValue, fenceEvent,
    duration)]; [duration] is the count of milliseconds. *)
Definition WaitForFenceValue (fenceValue : Z) (fenceEvent : HANDLE)
           (duration : Z) : M W unit :=
  let! completed := fence_GetCompletedValue in
  if completed <? fenceValue then
    let! hr := fence_SetEventOnCompletion fenceValue fenceEvent in
    do! ThrowIfFailed hr in
    do! WaitForSingleObject fenceEvent (to_DWORD duration) in
    ret tt
  else
    ret tt.

(** main.cpp:558, [Flush(commandQueue, fence, fenceValue, fenceEvent)];
    its wait is called without a duration, so with the default one,
    [std::chrono::milliseconds::max()]. *)
Definition Flush (fenceEvent : HANDLE) : M W unit :=
  let! fenceValueForSignal := Signal in
  WaitForFenceValue fenceValueForSignal fenceEvent milliseconds_max.

End Helpers.

(** ** A simulated device

    An executable instance of the engine, in discrete time (milliseconds).
    The command queue holds the fence signals that were enqueued, oldest
    first, each with the time at which the GPU gets to it ([None]: never,
    the GPU hangs there); the GPU works through the queue in order.  The
    fence event is an auto-reset event, non-signaled when created
    (main.cpp:524), and a registration made by [SetEventOnCompletion]
    sets its event once the fence reaches the registered value. *)

Record GPU := mkGPU {
  clock : Z;
  completed : Z;
  pending : list (Z * option Z);
  armed : list (Z * HANDLE);
  signaled : list HANDLE;
  latency : Z -> option Z;
  device_removed : bool
}.

Definition with_clock (t : Z) (w : GPU) : GPU :=
  mkGPU t (completed w) (pending w) (armed w) (signaled w)
        (latency w) (device_removed w).
Definition with_pending (q : list (Z * option Z)) (w : GPU) : GPU :=
  mkGPU (clock w) (completed w) q (armed w) (signaled w)
        (latency w) (device_removed w).
Definition with_armed (a : list (Z * HANDLE)) (w : GPU) : GPU :=
  mkGPU (clock w) (completed w) (pending w) a (signaled w)
        (latency w) (device_removed w).
Definition with_signaled (l : list HANDLE) (w : GPU) : GPU :=
  mkGPU (clock w) (completed w) (pending w) (armed w) l
        (latency w) (device_removed w).

(** The GPU executes a fence signal: the fence takes the value, and every
    registration the value satisfies sets its event and is consumed. *)
Definition execute (x : Z) (w : GPU) : GPU :=
  mkGPU (clock w) x (pending w)
        (filter (fun r => x < r.1) (armed w))
        (signaled w ++ (filter (fun r => r.1 <= x) (armed w)).*2)
        (latency w) (device_removed w).

(** The GPU runs every signal of [q] it reaches by time [t]. *)
Fixpoint gpu_run (t : Z) (q : list (Z * option Z)) (w : GPU) : GPU :=
  match q with
  | (x, Some r) :: q' =>
      if r <=? t then gpu_run t q' (execute x w) else with_pending q w
  | _ => with_pending q w
  end.

Definition settle (w : GPU) : GPU := gpu_run (clock w) (pending w) w.

Definition sim_Signal (value : Z) (w : GPU) : HRESULT * GPU :=
  if device_removed w then (DXGI_ERROR_DEVICE_REMOVED, w)
  else (S_OK,
        with_pending (pending w ++ [(value, (fun l => clock w + l) <$> latency w value)]) w).

Definition sim_GetCompletedValue (w : GPU) : Z := completed (settle w).

Definition sim_SetEventOnCompletion (value : Z) (hEvent : HANDLE) (w : GPU)
  : HRESULT * GPU :=
  if device_removed w then (DXGI_ERROR_DEVICE_REMOVED, w)
  else
    let w1 := settle w in
    if value <=? completed w1
    then (S_OK, with_signaled (signaled w1 ++ [hEvent]) w1)
    else (S_OK, with_armed (armed w1 ++ [(value, hEvent)]) w1).

(** The wait on an auto-reset event: it ends as soon as the event is
    signaled (and resets it), or at the deadline; with no deadline and a
    GPU that never sets the event it does not end. *)
Fixpoint wait_loop (h : HANDLE) (deadline : option Z)
         (q : list (Z * option Z)) (w : GPU) : option (Z * GPU) :=
  if bool_decide (h ∈ signaled w)
  then Some (WAIT_OBJECT_0,
             with_signaled (filter (fun h' => h' ≠ h) (signaled w)) (with_pending q w))
  else
    let expire :=
      match deadline with
      | Some d => Some (WAIT_TIMEOUT, with_clock d (with_pending q w))
      | None => None
      end in
    match q with
    | (x, Some r) :: q' =>
        let t := Z.max r (clock w) in
        if match deadline with Some d => d <? t | None => false end
        then expire
        else wait_loop h deadline q' (execute x (with_clock t w))
    | _ => expire
    end.

Definition sim_WaitForSingleObject (hEvent : HANDLE) (dwMilliseconds : Z) (w : GPU)
  : option (Z * GPU) :=
  wait_loop hEvent
            (if dwMilliseconds =? INFINITE then None else Some (clock w + dwMilliseconds))
            (pending w) w.

#[export] Instance sim_engine : Engine GPU := {
  Queue_Signal := sim_Signal;
  Fence_GetCompletedValue := sim_GetCompletedValue;
  Fence_SetEventOnCompletion := sim_SetEventOnCompletion;
  Os_WaitForSingleObject := sim_WaitForSingleObject
}.

(** The device right after initialisation: the fence created with value 0
    (main.cpp:508), an empty queue, the event non-signaled; [lat] says how
    long the GPU takes for each signal. *)
Definition fresh_gpu (lat : Z -> option Z) : GPU :=
  mkGPU 0 0 [] [] [] lat false.

Definition start {W} (w : W) : State W := mkState initial_globals [] w.

(** The event [h] is idle: not signaled, and no registration is still out
    on it. *)
Definition idle (h : HANDLE) (w : GPU) : Prop :=
  (h ∉ signaled w) ∧ ∀ v, (v, h) ∉ armed w.

(** Whether the GPU, working through [q], ever brings the fence to [v] or
    above. *)
Fixpoint reaches (v : Z) (q : list (Z * option Z)) : bool :=
  match q with
  | (x, Some _) :: q' => (v <=? x) || reaches v q'
  | _ => false
  end.

(** ** Sequences of fence operations *)

Inductive op : Type :=
| OpSignal
| OpWaitForFenceValue (fenceValue : Z) (fenceEvent : HANDLE) (duration : Z)
| OpFlush (fenceEvent : HANDLE).

Section Sequences.
Context {W : Type} `{Engine W}.

Definition run_op (o : op) : M W unit :=
  match o with
  | OpSignal => do! Signal in ret tt
  | OpWaitForFenceValue v h d => WaitForFenceValue v h d
  | OpFlush h => Flush h
  end.

(** The operations one after the other; an exception or a wait that never
    ends stops the sequence. *)
Fixpoint run_ops (l : list op) : M W unit :=
  match l with
  | [] => ret tt
  | o :: l' => do! run_op o in run_ops l'
  end.

(** [n] calls of [Signal], with the values they return. *)
Fixpoint signals (n : nat) : M W (list Z) :=
  match n with
  | O => ret []
  | S n' => let! v := Signal in let! vs := signals n' in ret (v :: vs)
  end.

(** [n] calls of [WaitForFenceValue] with the same arguments. *)
Fixpoint waits (n : nat) (fenceValue : Z) (fenceEvent : HANDLE) (duration : Z)
  : M W unit :=
  match n with
  | O => ret tt
  | S n' => do! WaitForFenceValue fenceValue fenceEvent duration in
            waits n' fenceValue fenceEvent duration
  end.

(** The spec's wording of flush, [wait(signal())]: signal, then wait with
    the default timeout for the value signal returned. *)
Definition spec_signal : M W Z := Signal.
Definition spec_wait (targetValue : Z) (fenceEvent : HANDLE) : M W unit :=
  WaitForFenceValue targetValue fenceEvent milliseconds_max.
Definition spec_flush (fenceEvent : HANDLE) : M W unit :=
  bind spec_signal (fun targetValue => spec_wait targetValue fenceEvent).

(** ** The render loop *)









End Sequences.

(** ** Command-line parsing (main.cpp:103) *)

(** [wcscmp(a, b) == 0] *)
Definition wcs_equal (a b : string) : bool := String.eqb a b.

(** The loop state: the index [i] and the globals, or a read of [argv]
    at or past [argc], which the program does not survive. *)
Inductive parse : Type :=
| Go (i : nat) (g : Globals)
| PastEnd (g : Globals).

Section CommandLine.
(** [wcstol(s, nullptr, 10)] of the C library. *)
Variable wcstol : string -> Z.

Definition arg (argv : list string) (i : nat) (g : Globals)
           (k : string -> parse) : parse :=
  match argv !! i with
  | Some a => k a
  | None => PastEnd g
  end.

(** [if (-w or --width) g_ClientWidth = wcstol(argv[++i], nullptr, 10);] *)
Definition width_option (argv : list string) (i : nat) (g : Globals) : parse :=
  arg argv i g (fun a =>
    if wcs_equal a "-w" || wcs_equal a "--width"
    then arg argv (S i) g (fun n => Go (S i) (set_ClientWidth (wrap32 (wcstol n)) g))
    else Go i g).

(** [if (-h or --height) g_ClientWidth = wcstol(argv[++i], nullptr, 10);] *)
Definition height_option (argv : list string) (i : nat) (g : Globals) : parse :=
  arg argv i g (fun a =>
    if wcs_equal a "-h" || wcs_equal a "--height"
    then arg argv (S i) g (fun n => Go (S i) (set_ClientWidth (wrap32 (wcstol n)) g))
    else Go i g).

(** [if (-warp or --warp) g_UseWARP = true;] *)
Definition warp_option (argv : list string) (i : nat) (g : Globals) : parse :=
  arg argv i g (fun a =>
    if wcs_equal a "-warp" || wcs_equal a "--warp"
    then Go i (set_UseWARP true g)
    else Go i g).

Definition and_then (p : parse) (k : nat -> Globals -> parse) : parse :=
  match p with
  | Go i g => k i g
  | PastEnd g => PastEnd g
  end.

Definition loop_body (argv : list string) (i : nat) (g : Globals) : parse :=
  and_then (width_option argv i g) (fun i1 g1 =>
  and_then (height_option argv i1 g1) (fun i2 g2 =>
  warp_option argv i2 g2)).

(** [for (size_t i = 0; i < argc; i++) body]; the index grows in every
    round, so [argc] rounds are enough. *)
Fixpoint parse_loop (fuel : nat) (argv : list string) (i : nat) (g : Globals) : parse :=
  if (i <? length argv)%nat then
    match fuel with
    | O => Go i g
    | S fuel' =>
        and_then (loop_body argv i g) (fun i' g' => parse_loop fuel' argv (S i') g')
    end
  else Go i g.

Definition ParseCommandLineArgs (argv : list string) (g : Globals) : parse :=
  parse_loop (length argv) argv 0 g.

Definition parsed_globals (p : parse) : Globals :=
  match p with
  | Go _ g => g
  | PastEnd g => g
  end.

End CommandLine.

Definition height_of (p : parse) : Z := g_ClientHeight (parsed_globals p).

(** A reading of plain decimal numerals, to run the parser on examples:
    an optional minus sign, then digits up to the first other character. *)
Fixpoint digits (acc : Z) (s : string) : Z :=
  match s with
  | String c s' =>
      let d := Z.of_nat (Ascii.nat_of_ascii c) - 48 in
      if (0 <=? d) && (d <=? 9) then digits (10 * acc + d) s' else acc
  | EmptyString => acc
  end.

Definition decimal (s : string) : Z :=
  match s with
  | String c s' => if Ascii.eqb c "-"%char then - digits 0 s' else digits 0 s
  | EmptyString => 0
  end.

(** The invariant of the fence protocol on the simulated device, for the
    program's event handle [h]: the counter is a 64-bit value, the event is
    idle, and every signal still in the queue carries a value the counter
    has already passed through. *)
Definition in_sync (h : HANDLE) (s : State GPU) : Prop :=
  0 <= counter s <= UINT64_MAX /\
  idle h (world s) /\
  Forall (fun e => e.1 <= counter s) (pending (world s)).

(** The GPU gets to every signal of the queue. *)
Definition honoured (q : list (Z * option Z)) : Prop :=
  Forall (fun e => is_Some e.2) q.

(** An operation of the program proper: it works on the event [h], and
    its wait, if any, has a duration that the cast turns into [INFINITE],
    as the default one. *)
Definition on_event (h : HANDLE) (o : op) : Prop :=
  match o with
  | OpSignal => True
  | OpWaitForFenceValue _ h' d => h' = h /\ to_DWORD d = INFINITE
  | OpFlush h' => h' = h
  end.

(** Concrete devices for the examples: a device that takes 5 ms for every
    signal, a GPU that hangs on every signal, and a removed device; and
    the event handle of the examples. *)
Definition steady_gpu : GPU := fresh_gpu (fun _ => Some 5).
Definition hung_gpu : GPU := fresh_gpu (fun _ => None).
Definition removed_gpu : GPU := mkGPU 0 0 [] [] [] (fun _ => Some 5) true.
Definition the_event : HANDLE := 7.

(** The steady device on which nothing but signals happened: no time has
    passed, the fence is at 0, and every signal of the queue is due at
    5 ms. *)
Definition only_signalled (w : GPU) : Prop :=
  clock w = 0 /\ completed w = 0 /\ device_removed w = false /\
  armed w = [] /\ signaled w = [] /\
  (forall v, latency w v = Some 5) /\
  Forall (fun e => e.2 = Some 5) (pending w).

(** ** More of main.cpp *)

(** The values the program handed to [commandQueue->Signal], in the order
    of the calls. *)
Definition signalled_value (c : call) : option Z :=
  match c with
  | CallSignal v _ => Some v
  | _ => None
  end.

Definition signal_values (l : list call) : list Z := omap signalled_value l.

(** *** The options of the command line *)

Definition is_width_option (a : string) : bool :=
  wcs_equal a "-w" || wcs_equal a "--width".
Definition is_height_option (a : string) : bool :=
  wcs_equal a "-h" || wcs_equal a "--height".
Definition is_warp_flag (a : string) : bool :=
  wcs_equal a "-warp" || wcs_equal a "--warp".
Definition is_size_option (a : string) : bool :=
  is_width_option a || is_height_option a.

(** The globals after the flags of [l] were seen. *)
Definition with_flags (l : list string) (g : Globals) : Globals :=
  if existsb is_warp_flag l then set_UseWARP true g else g.

(** What parsing may do to the globals: set [g_UseWARP], and store a
    32-bit value in [g_ClientWidth]; nothing else. *)
Definition parse_keeps (g g' : Globals) : Prop :=
  g_ClientHeight g' = g_ClientHeight g /\
  g_CurrentBackBufferIndex g' = g_CurrentBackBufferIndex g /\
  g_FenceValue g' = g_FenceValue g /\
  g_FrameFenceValues g' = g_FrameFenceValues g /\
  (g_UseWARP g = true -> g_UseWARP g' = true) /\
  (g_ClientWidth g' = g_ClientWidth g \/ 0 <= g_ClientWidth g' < 2 ^ 32).

(** *** Adapter selection (main.cpp:213) *)

Definition DXGI_ADAPTER_FLAG_SOFTWARE : Z := 2.
Definition SUCCEEDED (hr : HRESULT) : bool := 0 <=? hr.

(** Modelled from the spec: [ThrowIfFailed(hr)] followed by [k], for the
    functions that keep no state; as [ThrowIfFailed] above, a failed
    HRESULT is thrown as a [DeviceError]. *)
Definition throw_if_failed {A} (hr : HRESULT) (k : outcome A) : outcome A :=
  if FAILED hr then Thrown (DeviceError hr) else k.

(** An adapter of the system: the two fields of its [DXGI_ADAPTER_DESC1]
    that [GetAdapter] reads, and the answers of the two calls made on it. *)
Record adapter := mkAdapter {
  Flags : Z;
  DedicatedVideoMemory : Z;
  D3D12CreateDevice : HRESULT;   (* D3D12CreateDevice(adapter, 11_0, uuid, nullptr) *)
  As_IDXGIAdapter4 : HRESULT     (* dxgiAdapter1.As(&dxgiAdapter4) *)
}.

(** What the DXGI factory answers: its own creation, the WARP adapter,
    and the adapters [EnumAdapters1(i, ...)] yields for i = 0, 1, ...
    before it answers [DXGI_ERROR_NOT_FOUND]. *)
Record dxgi := mkDxgi {
  CreateDXGIFactory2 : HRESULT;
  EnumWarpAdapter : HRESULT * adapter;
  EnumAdapters1 : list adapter
}.

(** The test of the loop body, without the comparison of the memory. *)
Definition usable (a : adapter) : bool :=
  (Z.land (Flags a) DXGI_ADAPTER_FLAG_SOFTWARE =? 0) && SUCCEEDED (D3D12CreateDevice a).

(** The loop over the adapters, with its two variables. *)
Fixpoint enumerate (l : list adapter) (maxDedicatedVideoMemory : Z)
         (dxgiAdapter4 : option adapter) : outcome (option adapter) :=
  match l with
  | [] => Returned dxgiAdapter4
  | dxgiAdapter1 :: l' =>
      if (Z.land (Flags dxgiAdapter1) DXGI_ADAPTER_FLAG_SOFTWARE =? 0)
         && SUCCEEDED (D3D12CreateDevice dxgiAdapter1)
         && (maxDedicatedVideoMemory <? DedicatedVideoMemory dxgiAdapter1)
      then throw_if_failed (As_IDXGIAdapter4 dxgiAdapter1)
             (enumerate l' (DedicatedVideoMemory dxgiAdapter1) (Some dxgiAdapter1))
      else enumerate l' maxDedicatedVideoMemory dxgiAdapter4
  end.

(** The adapter returned; [None] is the null pointer. *)
Definition GetAdapter (useWarp : bool) (sys : dxgi) : outcome (option adapter) :=
  throw_if_failed (CreateDXGIFactory2 sys)
    (if useWarp then
       throw_if_failed (EnumWarpAdapter sys).1
         (throw_if_failed (As_IDXGIAdapter4 (EnumWarpAdapter sys).2)
            (Returned (Some (EnumWarpAdapter sys).2)))
     else enumerate (EnumAdapters1 sys) 0 None).

(** What the hardware path is to return from the adapters [l]: the first
    of the usable adapters with the most dedicated video memory, when that
    is more than none; the null pointer when no usable adapter has any. *)
Definition chosen (l : list adapter) (r : option adapter) : Prop :=
  match r with
  | None =>
      forall j b, l !! j = Some b -> usable b = true -> DedicatedVideoMemory b <= 0
  | Some c =>
      0 < DedicatedVideoMemory c /\
      exists k : nat,
        l !! k = Some c /\ usable c = true /\
        forall (j : nat) b, l !! j = Some b -> usable b = true ->
          DedicatedVideoMemory b <= DedicatedVideoMemory c /\
          (DedicatedVideoMemory b = DedicatedVideoMemory c -> (k <= j)%nat)
  end.

(** The running maximum that goes with the adapter held. *)
Definition held_memory (r : option adapter) : Z :=
  match r with
  | None => 0
  | Some c => DedicatedVideoMemory c
  end.

(** A system for the examples: a software adapter, two hardware adapters
    of 4 GB and 8 GB, a second one of 8 GB, and one of 16 GB that cannot
    create a D3D12 device; and a system whose one adapter shares the
    system memory. *)
Definition demo_adapters : list adapter :=
  [mkAdapter 2 1024 S_OK S_OK;
   mkAdapter 0 4096 S_OK S_OK;
   mkAdapter 0 8192 S_OK S_OK;
   mkAdapter 0 8192 S_OK S_OK;
   mkAdapter 0 16384 DXGI_ERROR_DEVICE_REMOVED S_OK].
Definition demo_dxgi : dxgi :=
  mkDxgi S_OK (S_OK, mkAdapter 2 0 S_OK S_OK) demo_adapters.
Definition integrated_dxgi : dxgi :=
  mkDxgi S_OK (S_OK, mkAdapter 2 0 S_OK S_OK) [mkAdapter 0 0 S_OK S_OK].
Definition broken_dxgi : dxgi :=
  mkDxgi DXGI_ERROR_DEVICE_REMOVED (S_OK, mkAdapter 2 0 S_OK S_OK) demo_adapters.

(** *** Window placement (main.cpp:173) *)

Definition INT_MIN : Z := - 2 ^ 31.
Definition INT_MAX : Z := 2 ^ 31 - 1.

(** The result of an [int] operation: overflow is undefined. *)
Definition int_result (z : Z) : option Z :=
  if (INT_MIN <=? z) && (z <=? INT_MAX) then Some z else None.

(** [static_cast<LONG>] of a [uint32_t]. *)
Definition to_LONG (z : Z) : Z := (z + 2 ^ 31) mod 2 ^ 32 - 2 ^ 31.

Record RECT := mkRECT {
  rect_left : Z;
  rect_top : Z;
  rect_right : Z;
  rect_bottom : Z
}.

(** The position and size [CreateWindow] passes to [CreateWindowExW]. *)
Record placement := mkPlacement {
  windowX : Z;
  windowY : Z;
  windowWidth : Z;
  windowHeight : Z
}.

Section Window.
(** [::AdjustWindowRect(&rect, WS_OVERLAPPEDWINDOW, FALSE)], as a function
    of the rectangle. *)
Variable AdjustWindowRect : RECT -> RECT.

Definition CreateWindow (screenWidth screenHeight : Z) (width height : Z)
  : option placement :=
  let windowRect := AdjustWindowRect (mkRECT 0 0 (to_LONG width) (to_LONG height)) in
  w ← int_result (rect_right windowRect - rect_left windowRect);
  h ← int_result (rect_bottom windowRect - rect_top windowRect);
  dx ← int_result (screenWidth - w);
  dy ← int_result (screenHeight - h);
  Some (mkPlacement (Z.max 0 (Z.quot dx 2)) (Z.max 0 (Z.quot dy 2)) w h).

End Window.

(** A window frame of 8 pixels with a caption of 31, for the examples. *)
Definition framed (r : RECT) : RECT :=
  mkRECT (rect_left r - 8) (rect_top r - 31) (rect_right r + 8) (rect_bottom r + 8).

(** *** Render target views (main.cpp:446) *)

Section RenderTargetViews.
Context {resource : Type}.
(** [swapChain->GetBuffer(i, ...)]: the HRESULT and the buffer. *)
Variable GetBuffer : Z -> HRESULT * resource.
(** [rtvHandle.Offset(rtvDescriptorSize)] of d3dx12.h: the handle moved on. *)
Variable Offset : Z -> Z -> Z.

(** What the function writes: the calls of [CreateRenderTargetView], each
    with its buffer and descriptor handle, and the array [g_BackBuffers]
    (a null pointer is [None]). *)
Record rtv_state := mkRtv {
  render_target_views : list (resource * Z);
  g_BackBuffers : list (option resource)
}.

(** [for (int i = 0; i < g_NumFrames; i++) body]. *)
Fixpoint rtv_loop (fuel : nat) (i : Z) (rtvHandle rtvDescriptorSize : Z)
         (st : rtv_state) : outcome unit * rtv_state :=
  if i <? g_NumFrames then
    match fuel with
    | O => (Returned tt, st)
    | S fuel' =>
        let '(hr, backBuffer) := GetBuffer i in
        if FAILED hr then (Thrown (DeviceError hr), st)
        else
          rtv_loop fuel' (i + 1) (Offset rtvHandle rtvDescriptorSize) rtvDescriptorSize
                   (mkRtv (render_target_views st ++ [(backBuffer, rtvHandle)])
                          (<[Z.to_nat i := Some backBuffer]> (g_BackBuffers st)))
    end
  else (Returned tt, st).

(** [rtvDescriptorSize] is what [GetDescriptorHandleIncrementSize] gave,
    [heapStart] what [GetCPUDescriptorHandleForHeapStart] gave. *)
Definition UpdateRenderTargetViews (rtvDescriptorSize heapStart : Z) (st : rtv_state)
  : outcome unit * rtv_state :=
  rtv_loop (Z.to_nat g_NumFrames) 0 heapStart rtvDescriptorSize st.

End RenderTargetViews.

(** Swap chains for the examples, with numbers for buffers: one that gives
    every buffer, one that fails for buffer 1. *)
Definition every_buffer (i : Z) : HRESULT * Z := (S_OK, 100 + i).
Definition no_buffer_1 (i : Z) : HRESULT * Z :=
  (if i =? 1 then DXGI_ERROR_DEVICE_REMOVED else S_OK, 100 + i).
Definition no_views : @rtv_state Z := mkRtv [] [None; None; None].

(** * Properties *)

(** Membership in a list of calls that is written out: one case per
    element, each closed by [tac]. *)
Ltac in_calls Hin tac :=
  repeat (apply elem_of_cons in Hin as [Hin | Hin]; [solve [tac] |]);
  apply elem_of_nil in Hin as [].

(** ** Arithmetic of the machine integers *)

Lemma wrap64_small (z : Z) : 0 <= z <= UINT64_MAX -> wrap64 z = z.
Proof. unfold wrap64, UINT64_MAX. intros Hz. apply Z.mod_small. lia. Qed.

Lemma wrap64_range (z : Z) : 0 <= wrap64 z <= UINT64_MAX.
Proof.
  unfold wrap64, UINT64_MAX.
  pose proof (Z.mod_pos_bound z (2 ^ 64) ltac:(lia)). lia.
Qed.

Lemma to_DWORD_small (z : Z) : 0 <= z < 2 ^ 32 -> to_DWORD z = z.
Proof. unfold to_DWORD, wrap32. intros Hz. apply Z.mod_small. lia. Qed.

Lemma default_duration_is_INFINITE : to_DWORD milliseconds_max = INFINITE.
Proof. reflexivity. Qed.

(** ** The helpers, call by call *)

Section HelperFacts.
Context {W : Type} {E : Engine W}.

Lemma Signal_unfold (s : State W) :
  Signal s =
  let v := wrap64 (counter s + 1) in
  let r := Queue_Signal v (world s) in
  let s' := mkState (set_FenceValue v (globals s)) (calls s ++ [CallSignal v r.1]) r.2 in
  if FAILED r.1 then (Thrown (DeviceError r.1), s') else (Returned v, s').
Proof.
  unfold Signal, bind, pre_increment_fenceValue, commandQueue_Signal, ThrowIfFailed,
    throw, ret, counter; cbn.
  destruct (Queue_Signal _ _) as [hr w]; cbn.
  destruct (FAILED hr); reflexivity.
Qed.

Lemma WaitForFenceValue_unfold (v : Z) (h : HANDLE) (d : Z) (s : State W) :
  WaitForFenceValue v h d s =
  let c := Fence_GetCompletedValue (world s) in
  if c <? v then
    let r := Fence_SetEventOnCompletion v h (world s) in
    let l := calls s ++ [CallGetCompletedValue c] ++ [CallSetEventOnCompletion v h r.1] in
    if FAILED r.1 then (Thrown (DeviceError r.1), mkState (globals s) l r.2)
    else
      match Os_WaitForSingleObject h (to_DWORD d) r.2 with
      | Some (x, w) =>
          (Returned tt,
           mkState (globals s) (l ++ [CallWaitForSingleObject h (to_DWORD d) (Some x)]) w)
      | None =>
          (Blocked,
           mkState (globals s) (l ++ [CallWaitForSingleObject h (to_DWORD d) None]) r.2)
      end
  else (Returned tt, log (CallGetCompletedValue c) s).
Proof.
  unfold WaitForFenceValue, bind, fence_GetCompletedValue, fence_SetEventOnCompletion,
    ThrowIfFailed, WaitForSingleObject, throw, ret, log; cbn.
  destruct (_ <? _); [|reflexivity].
  destruct (Fence_SetEventOnCompletion _ _ _) as [hr w]; cbn.
  rewrite <- !app_assoc; cbn.
  destruct (FAILED hr); cbn; [reflexivity|].
  destruct (Os_WaitForSingleObject _ _ _) as [[x w']|]; cbn;
    rewrite <- ?app_assoc; reflexivity.
Qed.

Lemma Flush_unfold (h : HANDLE) (s : State W) :
  Flush h s =
  match Signal s with
  | (Returned v, s1) => WaitForFenceValue v h milliseconds_max s1
  | (Thrown e, s1) => (Thrown e, s1)
  | (Blocked, s1) => (Blocked, s1)
  end.
Proof. reflexivity. Qed.

Lemma Signal_counter (s : State W) :
  counter (Signal s).2 = wrap64 (counter s + 1).
Proof.
  rewrite Signal_unfold; cbn. destruct (FAILED _); reflexivity.
Qed.

Lemma Signal_returns_counter (s s' : State W) (v : Z) :
  Signal s = (Returned v, s') -> v = wrap64 (counter s + 1) /\ v = counter s'.
Proof.
  rewrite Signal_unfold; cbn. destruct (FAILED _); intros Heq; inversion Heq; subst.
  split; reflexivity.
Qed.


Lemma WaitForFenceValue_globals (v : Z) (h : HANDLE) (d : Z) (s : State W) :
  globals (WaitForFenceValue v h d s).2 = globals s.
Proof.
  rewrite WaitForFenceValue_unfold; cbn.
  destruct (_ <? _); [|reflexivity].
  destruct (FAILED _); [reflexivity|].
  destruct (Os_WaitForSingleObject _ _ _) as [[x w']|]; reflexivity.
Qed.

Lemma Flush_counter (h : HANDLE) (s : State W) :
  counter (Flush h s).2 = wrap64 (counter s + 1).
Proof.
  rewrite Flush_unfold.
  pose proof (Signal_counter s) as Hc.
  destruct (Signal s) as [[v| e |] s1]; [|exact Hc..].
  unfold counter. rewrite WaitForFenceValue_globals. exact Hc.
Qed.

Lemma Signal_calls (s : State W) :
  exists hr, calls (Signal s).2 = calls s ++ [CallSignal (wrap64 (counter s + 1)) hr].
Proof.
  rewrite Signal_unfold; cbn. eexists. destruct (FAILED _); reflexivity.
Qed.

Lemma WaitForFenceValue_calls (v : Z) (h : HANDLE) (d : Z) (s : State W) :
  exists l, calls (WaitForFenceValue v h d s).2 = calls s ++ l.
Proof.
  rewrite WaitForFenceValue_unfold; cbn.
  destruct (_ <? _); [|eexists; reflexivity].
  destruct (FAILED _); [eexists; cbn; reflexivity|].
  destruct (Os_WaitForSingleObject _ _ _) as [[x w']|]; cbn;
    rewrite <- !app_assoc; eexists; reflexivity.
Qed.

Lemma run_op_counter (o : op) (s : State W) :
  counter (run_op o s).2 = counter s \/
  counter (run_op o s).2 = wrap64 (counter s + 1).
Proof.
  destruct o as [|v h d|h]; cbn [run_op].
  - right. unfold bind. pose proof (Signal_counter s) as Hc.
    destruct (Signal s) as [[v| e |] s1]; exact Hc.
  - left. unfold counter. rewrite WaitForFenceValue_globals. reflexivity.
  - right. apply Flush_counter.
Qed.

Lemma run_ops_counter (l : list op) (s : State W) :
  0 <= counter s ->
  counter s + Z.of_nat (length l) <= UINT64_MAX ->
  counter s <= counter (run_ops l s).2 <= counter s + Z.of_nat (length l).
Proof.
  revert s. induction l as [|o l IH]; intros s H0 Hn; cbn [run_ops length] in *.
  - cbn. lia.
  - unfold bind.
    pose proof (run_op_counter o s) as Ho.
    assert (Hstep : counter s <= counter (run_op o s).2 <= counter s + 1).
    { destruct Ho as [-> | ->]; [lia|]. rewrite wrap64_small; lia. }
    destruct (run_op o s) as [[[] | e |] s1]; cbn in *; try lia.
    specialize (IH s1 ltac:(lia) ltac:(lia)). lia.
Qed.

Lemma signals_values (n : nat) (s s' : State W) (vs : list Z) :
  0 <= counter s ->
  counter s + Z.of_nat n <= UINT64_MAX ->
  signals n s = (Returned vs, s') ->
  vs = (fun i => counter s + 1 + Z.of_nat i) <$> seq 0 n /\
  counter s' = counter s + Z.of_nat n.
Proof.
  revert s s' vs. induction n as [|n IH]; intros s s' vs H0 Hn Hrun.
  - cbn in Hrun. inversion Hrun; subst. cbn. split; [reflexivity | lia].
  - cbn [signals] in Hrun. unfold bind in Hrun.
    destruct (Signal s) as [[v| e |] s1] eqn:Hs; try discriminate.
    apply Signal_returns_counter in Hs as [Hv Hv'].
    rewrite wrap64_small in Hv by lia.
    destruct (signals n s1) as [[vs1| e |] s2] eqn:Hs1; try discriminate.
    cbn in Hrun. inversion Hrun; subst vs s'.
    apply IH in Hs1 as [Hvs Hc]; [|unfold counter in *; lia..].
    split; [|unfold counter in *; lia].
    cbn [seq fmap list_fmap]. f_equal; [unfold counter in *; lia|].
    rewrite Hvs, <- seq_shift, <- list_fmap_compose.
    apply list_fmap_ext. intros i x _. cbn. unfold counter in *. lia.
Qed.

End HelperFacts.

(** ** The claims about the helpers, for every engine *)

Section HelperClaims.
Context {W : Type} {E : Engine W}.

Lemma waits_satisfied (n : nat) (v : Z) (h : HANDLE) (d : Z) (s : State W) :
  v <= Fence_GetCompletedValue (world s) ->
  waits n v h d s =
  (Returned tt,
   mkState (globals s)
           (calls s ++ replicate n (CallGetCompletedValue (Fence_GetCompletedValue (world s))))
           (world s)).
Proof.
  revert s. induction n as [|n IH]; intros s Hv; cbn [waits replicate].
  - unfold ret. rewrite app_nil_r. destruct s; reflexivity.
  - unfold bind. rewrite WaitForFenceValue_unfold; cbn zeta.
    destruct (Z.ltb_spec (Fence_GetCompletedValue (world s)) v) as [Hlt|_]; [lia|].
    rewrite IH by exact Hv. cbn. rewrite <- app_assoc. reflexivity.
Qed.

(** The two paths of [WaitForFenceValue], on every engine and in every
    state.  With the completed value at or above the target [v] the query
    is the only call, nothing is registered and the device is left as it
    was, so any number of further waits for a target [v' <= v] return at
    once too.  With the completed value below [v], the call registers
    exactly [v] on the event handle and, the registration accepted, enters
    [WaitForSingleObject] on that handle with the duration cast to
    [DWORD]; it returns when that wait ends, and not before. *)
Lemma WaitForFenceValue_paths
      (v : Z) (h : HANDLE) (d : Z) (s : State W) :
  let c := Fence_GetCompletedValue (world s) in
  (v <= c ->
   WaitForFenceValue v h d s = (Returned tt, log (CallGetCompletedValue c) s) /\
   forall (n : nat) (v' : Z), v' <= v ->
     waits n v' h d s =
     (Returned tt,
      mkState (globals s) (calls s ++ replicate n (CallGetCompletedValue c)) (world s))) /\
  (c < v ->
   let r := Fence_SetEventOnCompletion v h (world s) in
   let l := calls s ++ [CallGetCompletedValue c; CallSetEventOnCompletion v h r.1] in
   FAILED r.1 = false ->
   match Os_WaitForSingleObject h (to_DWORD d) r.2 with
   | Some (x, w) =>
       WaitForFenceValue v h d s =
       (Returned tt,
        mkState (globals s) (l ++ [CallWaitForSingleObject h (to_DWORD d) (Some x)]) w)
   | None =>
       WaitForFenceValue v h d s =
       (Blocked,
        mkState (globals s) (l ++ [CallWaitForSingleObject h (to_DWORD d) None]) r.2)
   end).
Proof.
  intros c. split.
  - intros Hv. split.
    + rewrite WaitForFenceValue_unfold; cbn zeta. fold c.
      destruct (Z.ltb_spec c v) as [Hlt|_]; [lia | reflexivity].
    + intros n v' Hv'. apply waits_satisfied. fold c. lia.
  - intros Hv r l Hok.
    rewrite WaitForFenceValue_unfold; cbn zeta. fold c r.
    destruct (Z.ltb_spec c v) as [_|Hge]; [|lia].
    rewrite Hok. cbn [app]. fold l.
    destruct (Os_WaitForSingleObject h (to_DWORD d) r.2) as [[x w]|]; reflexivity.
Qed.

(** C2, as amended.  Every call of [Signal] sets the counter to its
    successor modulo 2^64, whether the enqueue succeeds or throws, and a
    call that returns returns the new counter.  While the counter stays
    below 2^64 - 1: [n] successive calls that all return give
    [c+1, c+2, ..., c+n]; [WaitForFenceValue] never changes the counter;
    and no sequence of Signal / WaitForFenceValue / Flush operations makes
    it smaller. *)
Theorem Signal_increments_counter
        (s : State W) (n : nat) (ops : list op) :
  0 <= counter s ->
  counter s + Z.of_nat n <= UINT64_MAX ->
  counter s + Z.of_nat (length ops) <= UINT64_MAX ->
  counter (Signal s).2 = wrap64 (counter s + 1) /\
  (forall v s', Signal s = (Returned v, s') ->
     v = counter s' /\ (counter s < UINT64_MAX -> v = counter s + 1)) /\
  (forall vs s', signals n s = (Returned vs, s') ->
     vs = (fun i => counter s + 1 + Z.of_nat i) <$> seq 0 n) /\
  (forall v h d, counter (WaitForFenceValue v h d s).2 = counter s) /\
  counter s <= counter (run_ops ops s).2.
Proof.
  intros H0 Hn Hops.
  split; [apply Signal_counter|]. split; [|split; [|split]].
  - intros v s' Hs. apply Signal_returns_counter in Hs as [Hv Hv'].
    split; [exact Hv'|]. intros Hlt.
    rewrite wrap64_small in Hv by lia. exact Hv.
  - intros vs s' Hrun. eapply signals_values; eauto.
  - intros v h d. unfold counter. rewrite WaitForFenceValue_globals. reflexivity.
  - apply run_ops_counter; assumption.
Qed.

(** C3. [Flush] is the composition [wait(signal())] of the spec: on every
    state the two give the same outcome and the same final state.  It
    always signals afresh: whatever the outcome, the counter ends at its
    successor modulo 2^64 and the first call made is the enqueue of that
    value - also right after a flush that has just returned - and when the
    signal returns [v], the rest of the flush is the wait for [v] with the
    default duration. *)
Theorem Flush_is_wait_of_signal (h : HANDLE) (s : State W) :
  Flush h s = spec_flush h s /\
  counter (Flush h s).2 = wrap64 (counter s + 1) /\
  (exists hr rest,
     calls (Flush h s).2 = calls s ++ CallSignal (wrap64 (counter s + 1)) hr :: rest) /\
  (forall v s1, Signal s = (Returned v, s1) ->
     v = wrap64 (counter s + 1) /\
     Flush h s = WaitForFenceValue v h milliseconds_max s1) /\
  (forall s1, Flush h s = (Returned tt, s1) ->
     counter (Flush h s1).2 = wrap64 (counter s1 + 1) /\
     exists hr rest,
       calls (Flush h s1).2 = calls s1 ++ CallSignal (wrap64 (counter s1 + 1)) hr :: rest).
Proof.
  assert (Hcalls : forall s0 : State W, exists hr rest,
             calls (Flush h s0).2 =
             calls s0 ++ CallSignal (wrap64 (counter s0 + 1)) hr :: rest).
  { intros s0. rewrite Flush_unfold.
    destruct (Signal_calls s0) as [hr Hhr].
    destruct (Signal s0) as [[v| e |] s1]; cbn [snd] in *.
    - destruct (WaitForFenceValue_calls v h milliseconds_max s1) as [l Hl].
      exists hr, l. rewrite Hl, Hhr, <- app_assoc. reflexivity.
    - exists hr, []. exact Hhr.
    - exists hr, []. exact Hhr. }
  split; [reflexivity|]. split; [apply Flush_counter|].
  split; [apply Hcalls|]. split.
  - intros v s1 Hs. split.
    + apply Signal_returns_counter in Hs as [Hv _]. exact Hv.
    + rewrite Flush_unfold, Hs. reflexivity.
  - intros s1 _. split; [apply Flush_counter | apply Hcalls].
Qed.

(** C6. A failed HRESULT of the enqueue makes [Signal] throw a
    [DeviceError] carrying it, after that single attempt, and [Flush]
    passes the exception on.  A failed HRESULT of the registration makes
    [WaitForFenceValue] throw a [DeviceError] carrying it, after that
    single attempt and without entering the blocking wait, and [Flush]
    passes that exception on as well.  Nothing is retried and nothing is
    caught. *)
Theorem device_errors_are_thrown (v : Z) (h : HANDLE) (d : Z) (s : State W) :
  (let r := Queue_Signal (wrap64 (counter s + 1)) (world s) in
   let s' := mkState (set_FenceValue (wrap64 (counter s + 1)) (globals s))
                     (calls s ++ [CallSignal (wrap64 (counter s + 1)) r.1]) r.2 in
   FAILED r.1 = true ->
   Signal s = (Thrown (DeviceError r.1), s') /\
   Flush h s = (Thrown (DeviceError r.1), s')) /\
  (let c := Fence_GetCompletedValue (world s) in
   let r := Fence_SetEventOnCompletion v h (world s) in
   c < v ->
   FAILED r.1 = true ->
   WaitForFenceValue v h d s =
   (Thrown (DeviceError r.1),
    mkState (globals s)
            (calls s ++ [CallGetCompletedValue c; CallSetEventOnCompletion v h r.1]) r.2)) /\
  (forall v1 s1 e s2,
     Signal s = (Returned v1, s1) ->
     WaitForFenceValue v1 h milliseconds_max s1 = (Thrown e, s2) ->
     Flush h s = (Thrown e, s2)).
Proof.
  split; [|split].
  - intros r s' Hf.
    assert (Hs : Signal s = (Thrown (DeviceError r.1), s')).
    { rewrite Signal_unfold; cbn zeta. fold r. rewrite Hf. reflexivity. }
    split; [exact Hs|]. rewrite Flush_unfold, Hs. reflexivity.
  - intros c r Hlt Hf.
    rewrite WaitForFenceValue_unfold; cbn zeta. fold c r.
    destruct (Z.ltb_spec c v) as [_|Hge]; [|lia].
    rewrite Hf. reflexivity.
  - intros v1 s1 e s2 Hs Hw. rewrite Flush_unfold, Hs. exact Hw.
Qed.

(** C7. [WaitForFenceValue] works on the target it is given and on nothing
    else of the producer: overwriting the execution counter changes
    neither its outcome nor what it does to the device or which calls it
    makes.  It returns at once exactly when the completed value is not
    below the target [v]; it registers a notification exactly when the
    completed value is below [v]; and every registration it makes is for
    the value [v] on the handle it was given. *)
Theorem WaitForFenceValue_uses_its_target
        (v : Z) (h : HANDLE) (d : Z) (latest : Z) (s : State W) :
  let c := Fence_GetCompletedValue (world s) in
  let r := WaitForFenceValue v h d s in
  WaitForFenceValue v h d (with_counter latest s) = (r.1, with_counter latest r.2) /\
  exists l,
    calls r.2 = calls s ++ CallGetCompletedValue c :: l /\
    (l = [] <-> v <= c) /\
    (c < v <-> exists hr, CallSetEventOnCompletion v h hr ∈ l) /\
    (forall x hx hr, CallSetEventOnCompletion x hx hr ∈ l -> x = v /\ hx = h).
Proof.
  intros c r. split.
  - subst r. rewrite !WaitForFenceValue_unfold; cbn zeta. cbn [world with_counter].
    fold c. destruct (c <? v); [|reflexivity].
    destruct (FAILED _); [reflexivity|].
    destruct (Os_WaitForSingleObject _ _ _) as [[x w]|]; reflexivity.
  - subst r. rewrite WaitForFenceValue_unfold; cbn zeta. fold c.
    destruct (Z.ltb_spec c v) as [Hlt|Hge].
    + set (p := Fence_SetEventOnCompletion v h (world s)).
      assert (Hin : forall (x : Z) (hx : HANDLE) (hr : HRESULT) (o : option Z),
                 CallSetEventOnCompletion x hx hr ∈
                   [CallSetEventOnCompletion v h p.1;
                    CallWaitForSingleObject h (to_DWORD d) o] -> x = v /\ hx = h).
      { intros x hx hr o Hin. apply elem_of_cons in Hin as [Heq|Hin].
        - inversion Heq; auto.
        - apply elem_of_cons in Hin as [Heq|Hin]; [discriminate|].
          apply elem_of_nil in Hin as []. }
      destruct (FAILED p.1).
      * exists [CallSetEventOnCompletion v h p.1]. cbn [snd calls app].
        split; [reflexivity|]. split; [split; [discriminate | lia]|].
        split.
        -- split; [intros _; exists p.1; apply list_elem_of_here | intros _; exact Hlt].
        -- intros x hx hr Hx. apply list_elem_of_singleton in Hx. inversion Hx; auto.
      * destruct (Os_WaitForSingleObject h (to_DWORD d) p.2) as [[x w]|];
          cbn [snd calls].
        -- exists [CallSetEventOnCompletion v h p.1;
                   CallWaitForSingleObject h (to_DWORD d) (Some x)].
           rewrite <- !app_assoc. cbn [app].
           split; [reflexivity|]. split; [split; [discriminate | lia]|].
           split; [|intros; eapply Hin; eauto].
           split; [intros _; exists p.1; apply list_elem_of_here | intros _; exact Hlt].
        -- exists [CallSetEventOnCompletion v h p.1;
                   CallWaitForSingleObject h (to_DWORD d) None].
           rewrite <- !app_assoc. cbn [app].
           split; [reflexivity|]. split; [split; [discriminate | lia]|].
           split; [|intros; eapply Hin; eauto].
           split; [intros _; exists p.1; apply list_elem_of_here | intros _; exact Hlt].
    + exists []. cbn [snd calls log]. split; [reflexivity|].
      split; [split; [lia | reflexivity]|]. split.
      * split; [lia | intros [hr Hin]; apply elem_of_nil in Hin as []].
      * intros x hx hr Hin. apply elem_of_nil in Hin as [].
Qed.

End HelperClaims.

(** ** The simulated device *)

Lemma execute_signaled (h : HANDLE) (x : Z) (w : GPU) :
  h ∈ signaled (execute x w) <->
  h ∈ signaled w \/ exists v, (v, h) ∈ armed w /\ v <= x.
Proof.
  unfold execute; cbn [signaled]. rewrite elem_of_app, list_elem_of_fmap.
  split.
  - intros [Hin | [[v h'] [-> Hin]]]; [left; exact Hin|].
    apply list_elem_of_filter in Hin as [Hle Hin]. right. exists v. split; assumption.
  - intros [Hin | [v [Hin Hle]]]; [left; exact Hin|].
    right. exists (v, h). split; [reflexivity|].
    apply list_elem_of_filter. split; assumption.
Qed.

Lemma execute_armed (r : Z * HANDLE) (x : Z) (w : GPU) :
  r ∈ armed (execute x w) <-> x < r.1 /\ r ∈ armed w.
Proof. unfold execute; cbn [armed]. rewrite list_elem_of_filter. reflexivity. Qed.

Lemma execute_idle (h : HANDLE) (x : Z) (w : GPU) :
  idle h w -> idle h (execute x w).
Proof.
  intros [Hs Ha]. split.
  - rewrite execute_signaled. intros [Hin | [v [Hin _]]]; [exact (Hs Hin)|].
    exact (Ha v Hin).
  - intros v Hin. apply execute_armed in Hin as [_ Hin]. exact (Ha v Hin).
Qed.

Lemma gpu_run_frame (t : Z) (q : list (Z * option Z)) (w : GPU) :
  clock (gpu_run t q w) = clock w /\
  latency (gpu_run t q w) = latency w /\
  device_removed (gpu_run t q w) = device_removed w.
Proof.
  revert w. induction q as [|[x [r|]] q IH]; intros w; cbn [gpu_run];
    try (repeat split; reflexivity).
  destruct (r <=? t); [|repeat split; reflexivity].
  destruct (IH (execute x w)) as (-> & -> & ->). repeat split; reflexivity.
Qed.

Lemma gpu_run_idle (h : HANDLE) (t : Z) (q : list (Z * option Z)) (w : GPU) :
  idle h w -> idle h (gpu_run t q w).
Proof.
  revert w. induction q as [|[x [r|]] q IH]; intros w Hi; cbn [gpu_run];
    try exact Hi.
  destruct (r <=? t); [|exact Hi]. apply IH, execute_idle, Hi.
Qed.

(** Running a queue that never brings the fence to [v] keeps it below. *)
Lemma gpu_run_below (v t : Z) (q : list (Z * option Z)) (w : GPU) :
  completed w < v -> reaches v q = false ->
  completed (gpu_run t q w) < v /\ reaches v (pending (gpu_run t q w)) = false.
Proof.
  revert w. induction q as [|[x [r|]] q IH]; intros w Hc Hr; cbn [gpu_run];
    try (split; [exact Hc | exact Hr]).
  cbn [reaches] in Hr. apply orb_false_iff in Hr as [Hx Hq].
  destruct (r <=? t).
  - apply IH; [|exact Hq]. cbn. lia.
  - split; [exact Hc|]. cbn [pending with_pending reaches]. rewrite Hx, Hq. reflexivity.
Qed.

Lemma gpu_run_reaches (v t : Z) (q : list (Z * option Z)) (w : GPU) :
  reaches v q = false -> reaches v (pending (gpu_run t q w)) = false.
Proof.
  revert w. induction q as [|[x [r|]] q IH]; intros w Hr; cbn [gpu_run];
    try exact Hr.
  destruct (r <=? t); [|exact Hr].
  apply IH. cbn [reaches] in Hr. apply orb_false_iff in Hr as [_ Hq]. exact Hq.
Qed.

(** Running a queue whose last signal is the only one to reach [v]:
    either that signal is still in the queue, or the fence stands at [v]
    and the queue is empty. *)
Lemma gpu_run_last (v : Z) (o : option Z) (t : Z) (q0 : list (Z * option Z)) (w : GPU) :
  Forall (fun e => e.1 < v) q0 ->
  (exists q1, pending (gpu_run t (q0 ++ [(v, o)]) w) = q1 ++ [(v, o)] /\
              Forall (fun e => e.1 < v) q1) \/
  (pending (gpu_run t (q0 ++ [(v, o)]) w) = [] /\
   completed (gpu_run t (q0 ++ [(v, o)]) w) = v).
Proof.
  revert w. induction q0 as [|[x [r|]] q0 IH]; intros w Hq; cbn [app gpu_run].
  - destruct o as [r|]; [|left; exists []; split; [reflexivity | constructor]].
    destruct (r <=? t); cbn [gpu_run].
    + right. split; reflexivity.
    + left. exists []. split; [reflexivity | constructor].
  - inversion Hq as [|? ? Hx Hq0]; subst.
    destruct (r <=? t).
    + apply IH, Hq0.
    + left. exists ((x, Some r) :: q0). split; [reflexivity | exact Hq].
  - left. exists ((x, None) :: q0). split; [reflexivity | exact Hq].
Qed.

(** A wait without deadline does not end by a timeout. *)
Lemma wait_loop_no_deadline (h : HANDLE) (q : list (Z * option Z)) (w w' : GPU) (r : Z) :
  wait_loop h None q w = Some (r, w') -> r = WAIT_OBJECT_0.
Proof.
  revert w. induction q as [|[x [t|]] q IH]; intros w; cbn [wait_loop];
    case_bool_decide; intros Heq; try discriminate; try (inversion Heq; reflexivity).
  eapply IH, Heq.
Qed.

(** From an event that is signaled only if the fence is at [v] or above
    and that carries registrations for [v] or above only, the wait ends
    by the fence standing at [v] or above, or at its deadline. *)
Lemma wait_loop_ends (v : Z) (h : HANDLE) (dl : option Z)
      (q : list (Z * option Z)) (w w' : GPU) (r : Z) :
  (h ∈ signaled w -> v <= completed w) ->
  (forall v', (v', h) ∈ armed w -> v <= v') ->
  wait_loop h dl q w = Some (r, w') ->
  (r = WAIT_OBJECT_0 /\ v <= completed w') \/
  (r = WAIT_TIMEOUT /\ dl = Some (clock w')).
Proof.
  assert (Hexp : forall (q0 : list (Z * option Z)) (w0 : GPU),
             match dl with
             | Some d => Some (WAIT_TIMEOUT, with_clock d (with_pending q0 w0))
             | None => None
             end = Some (r, w') ->
             r = WAIT_TIMEOUT /\ dl = Some (clock w')).
  { intros q0 w0. destruct dl as [d|]; [|discriminate].
    intros Heq; inversion Heq; subst. split; reflexivity. }
  revert w. induction q as [|[x [t|]] q IH]; intros w Hs Ha; cbn [wait_loop];
    case_bool_decide as Hin; intros Heq;
    try (left; inversion Heq; subst; split; [reflexivity | exact (Hs Hin)]);
    try (right; eapply Hexp; exact Heq).
  destruct (match dl with Some d => d <? Z.max t (clock w) | None => false end).
  - right; eapply Hexp; exact Heq.
  - eapply IH; [| |exact Heq].
    + rewrite execute_signaled. cbn [signaled with_clock armed completed execute].
      intros [Hin' | [v' [Hin' Hle]]]; [contradiction|].
      specialize (Ha v' Hin'). lia.
    + intros v' Hin'. apply execute_armed in Hin' as [_ Hin']. exact (Ha v' Hin').
Qed.

(** The wait on a queue whose last signal is the only one to reach [v],
    with registrations for [v] only: when it ends, the fence stands at
    [v], the queue is empty and the event is idle again. *)
Lemma wait_loop_last (v : Z) (h : HANDLE) (o : option Z)
      (q0 : list (Z * option Z)) (w w' : GPU) (r : Z) :
  h ∉ signaled w ->
  (forall v', (v', h) ∈ armed w -> v' = v) ->
  Forall (fun e => e.1 < v) q0 ->
  wait_loop h None (q0 ++ [(v, o)]) w = Some (r, w') ->
  completed w' = v /\ pending w' = [] /\ idle h w'.
Proof.
  revert w. induction q0 as [|[x [t|]] q0 IH]; intros w Hs Ha Hq;
    cbn [app wait_loop]; case_bool_decide as Hin; try contradiction.
  - destruct o as [t|]; [|discriminate].
    cbn [wait_loop]. case_bool_decide as Hin'; [|discriminate].
    intros Heq; inversion Heq; subst; clear Heq.
    split; [reflexivity|]. split; [reflexivity|]. split.
    + cbn [signaled with_signaled]. rewrite list_elem_of_filter. tauto.
    + intros v' Hv'. cbn [armed with_signaled with_pending] in Hv'.
      apply execute_armed in Hv' as [Hlt Hv']. cbn [fst with_clock armed] in *.
      specialize (Ha v' Hv'). lia.
  - inversion Hq as [|? ? Hx Hq0]; subst. cbn [fst] in Hx.
    intros Heq. eapply IH; [| |exact Hq0|exact Heq].
    + rewrite execute_signaled. cbn [signaled armed with_clock].
      intros [Hin' | [v' [Hin' Hle]]]; [contradiction|].
      specialize (Ha v' Hin'). lia.
    + intros v' Hv'. apply execute_armed in Hv' as [_ Hv']. exact (Ha v' Hv').
  - discriminate.
Qed.

(** The wait with a deadline on a GPU that never brings the fence to [v]
    ends at the deadline, by a timeout. *)
Lemma wait_loop_expires (v : Z) (h : HANDLE) (d : Z)
      (q : list (Z * option Z)) (w : GPU) :
  h ∉ signaled w ->
  (forall v', (v', h) ∈ armed w -> v <= v') ->
  completed w < v ->
  reaches v q = false ->
  exists w',
    wait_loop h (Some d) q w = Some (WAIT_TIMEOUT, w') /\
    clock w' = d /\ completed w' < v /\ reaches v (pending w') = false.
Proof.
  revert w. induction q as [|[x [t|]] q IH]; intros w Hs Ha Hc Hr;
    cbn [wait_loop]; case_bool_decide as Hin; try contradiction;
    try (eexists; split; [reflexivity|]; repeat split; assumption).
  cbn [reaches] in Hr. pose proof Hr as Hr'.
  apply orb_false_iff in Hr' as [Hx Hq]. apply Z.leb_gt in Hx.
  destruct (d <? Z.max t (clock w)).
  - eexists; split; [reflexivity|]; repeat split; assumption.
  - apply IH; [| | |exact Hq].
    + rewrite execute_signaled. cbn [signaled armed with_clock].
      intros [Hin' | [v' [Hin' Hle]]]; [contradiction|].
      specialize (Ha v' Hin'). lia.
    + intros v' Hv'. apply execute_armed in Hv' as [_ Hv']. exact (Ha v' Hv').
    + cbn. exact Hx.
Qed.

(** What is left of the queue after a run is a part of the queue. *)
Lemma gpu_run_pending (P : Z * option Z -> Prop) (t : Z)
      (q : list (Z * option Z)) (w : GPU) :
  Forall P q -> Forall P (pending (gpu_run t q w)).
Proof.
  revert w. induction q as [|[x [r|]] q IH]; intros w Hq; cbn [gpu_run];
    try exact Hq.
  destruct (r <=? t); [|exact Hq].
  apply IH. inversion Hq; assumption.
Qed.

Lemma gpu_run_honoured (t : Z) (q : list (Z * option Z)) (w : GPU) :
  honoured q -> honoured (pending (gpu_run t q w)).
Proof. apply gpu_run_pending. Qed.

(** The wait without deadline ends when the GPU gets to every signal of
    the queue and one of them satisfies a registration on the event. *)
Lemma wait_loop_honoured (v : Z) (h : HANDLE) (q : list (Z * option Z)) (w : GPU) :
  honoured q ->
  h ∈ signaled w \/ ((v, h) ∈ armed w /\ exists e, e ∈ q /\ v <= e.1) ->
  exists w', wait_loop h None q w = Some (WAIT_OBJECT_0, w').
Proof.
  revert w. induction q as [|[x [t|]] q IH]; intros w Hq Hw;
    cbn [wait_loop]; case_bool_decide as Hin; try (eexists; reflexivity);
    destruct Hw as [Hs | [Ha [e [He Hle]]]]; try contradiction.
  - apply elem_of_nil in He as [].
  - inversion Hq as [|? ? _ Hq']; subst.
    apply IH; [exact Hq'|].
    apply elem_of_cons in He as [-> | He].
    + left. rewrite execute_signaled. right. exists v. split; assumption.
    + destruct (Z.le_gt_cases v x) as [Hvx | Hvx].
      * left. rewrite execute_signaled. right. exists v. split; assumption.
      * right. split.
        -- apply execute_armed. split; [cbn; lia | exact Ha].
        -- exists e. split; assumption.
  - inversion Hq as [|? ? [? Hnone] _]; discriminate.
Qed.

(** ** The claims that need the device *)

Lemma start_in_sync (h : HANDLE) (lat : Z -> option Z) :
  in_sync h (start (fresh_gpu lat)).
Proof.
  split; [cbn; unfold UINT64_MAX; lia|]. split; [|constructor].
  split; [apply not_elem_of_nil | intros v; apply not_elem_of_nil].
Qed.

(** What [Flush] does on the device in sync with the counter. *)
Lemma Flush_in_sync (h : HANDLE) (s s' : State GPU) :
  in_sync h s ->
  counter s < UINT64_MAX ->
  Flush h s = (Returned tt, s') ->
  counter s' = counter s + 1 /\
  counter s' <= sim_GetCompletedValue (world s') /\
  in_sync h s'.
Proof.
  intros ([Hc0 Hc1] & Hidle & Hq) Hlt.
  rewrite Flush_unfold, Signal_unfold; cbn zeta.
  rewrite (wrap64_small (counter s + 1)) by lia.
  cbn [Queue_Signal sim_engine]. unfold sim_Signal.
  destruct (device_removed (world s)) eqn:Hrm; [discriminate|].
  cbn [fst snd]. change (FAILED S_OK) with false. cbv iota.
  set (v := counter s + 1).
  set (o := (fun l => clock (world s) + l) <$> latency (world s) v).
  set (w1 := with_pending (pending (world s) ++ [(v, o)]) (world s)).
  assert (Hq0 : Forall (fun e : Z * option Z => e.1 < v) (pending (world s))).
  { eapply Forall_impl; [exact Hq|]. intros e He. cbn in He. subst v. lia. }
  assert (Hidle1 : idle h w1) by exact Hidle.
  rewrite WaitForFenceValue_unfold; cbn zeta.
  cbn [world globals calls Fence_GetCompletedValue Fence_SetEventOnCompletion
       Os_WaitForSingleObject sim_engine].
  unfold sim_GetCompletedValue at 1.
  destruct (Z.ltb_spec (completed (settle w1)) v) as [Hbelow | Habove].
  - unfold sim_SetEventOnCompletion.
    change (device_removed w1) with (device_removed (world s)). rewrite Hrm.
    destruct (Z.leb_spec v (completed (settle w1))) as [Hge|_]; [lia|].
    cbn [fst snd]. change (FAILED S_OK) with false. cbv iota.
    rewrite default_duration_is_INFINITE.
    unfold sim_WaitForSingleObject. rewrite Z.eqb_refl.
    cbn [pending with_armed].
    destruct (gpu_run_last v o (clock w1) (pending (world s)) w1 Hq0)
      as [(q1 & Hq1 & HF1) | [_ Hdone]];
      [|unfold settle in Hbelow; cbn [pending w1 with_pending] in Hbelow; lia].
    unfold settle at 1. cbn [pending w1 with_pending] in *. fold w1. rewrite Hq1.
    destruct (wait_loop h None (q1 ++ [(v, o)]) _) as [[x w']|] eqn:Hwait;
      [|discriminate].
    intros Heq; inversion Heq; subst s'; clear Heq.
    apply wait_loop_last in Hwait as (Hcomp & Hpend & Hidle'); [| | |exact HF1].
    + cbn [counter globals world set_FenceValue g_FenceValue].
      unfold sim_GetCompletedValue, settle. rewrite Hpend. cbn [gpu_run].
      cbn [completed with_pending]. rewrite Hcomp.
      split; [reflexivity|]. split; [lia|].
      split; [cbn; lia|]. split; [exact Hidle'|].
      cbn [world]. rewrite Hpend. constructor.
    + cbn [signaled with_armed]. apply (gpu_run_idle h), Hidle1.
    + intros v' Hv'. cbn [armed with_armed] in Hv'.
      apply elem_of_app in Hv' as [Hv' | Hv'].
      * exfalso. eapply (gpu_run_idle h (clock w1) _ w1 Hidle1). exact Hv'.
      * apply list_elem_of_singleton in Hv'. congruence.
  - intros Heq; inversion Heq; subst s'; clear Heq.
    cbn [counter globals world set_FenceValue g_FenceValue log].
    split; [reflexivity|]. split; [exact Habove|].
    split; [cbn; lia|]. split; [exact Hidle1|].
    cbn [pending w1 with_pending]. apply Forall_app. split.
    + eapply Forall_impl; [exact Hq|]. intros e He. cbn in *. lia.
    + constructor; [cbn; lia | constructor].
Qed.

Lemma Signal_in_sync (h : HANDLE) (s s' : State GPU) (v : Z) :
  in_sync h s ->
  counter s < UINT64_MAX ->
  Signal s = (Returned v, s') ->
  v = counter s + 1 /\ in_sync h s'.
Proof.
  intros ([Hc0 Hc1] & Hidle & Hq) Hlt.
  rewrite Signal_unfold; cbn zeta.
  rewrite (wrap64_small (counter s + 1)) by lia.
  cbn [Queue_Signal sim_engine]. unfold sim_Signal.
  destruct (device_removed (world s)); [discriminate|].
  cbn [fst snd]. change (FAILED S_OK) with false. cbv iota.
  intros Heq; inversion Heq; subst; clear Heq.
  split; [reflexivity|]. split; [cbn; lia|]. split; [exact Hidle|].
  cbn [world pending with_pending counter globals set_FenceValue g_FenceValue].
  apply Forall_app. split.
  - eapply Forall_impl; [exact Hq|]. intros e He. cbn in *. lia.
  - constructor; [cbn; lia | constructor].
Qed.

(** [Flush] returns when the device is there and the GPU gets to every
    signal, the new one included. *)
Lemma Flush_returns (h : HANDLE) (s : State GPU) :
  in_sync h s ->
  counter s < UINT64_MAX ->
  device_removed (world s) = false ->
  honoured (pending (world s)) ->
  is_Some (latency (world s) (counter s + 1)) ->
  exists s', Flush h s = (Returned tt, s').
Proof.
  intros ([Hc0 Hc1] & Hidle & Hq) Hlt Hrm Hhon Hlat.
  rewrite Flush_unfold, Signal_unfold; cbn zeta.
  rewrite (wrap64_small (counter s + 1)) by lia.
  cbn [Queue_Signal sim_engine]. unfold sim_Signal. rewrite Hrm.
  cbn [fst snd]. change (FAILED S_OK) with false. cbv iota.
  set (v := counter s + 1) in *.
  set (o := (fun l => clock (world s) + l) <$> latency (world s) v).
  set (w1 := with_pending (pending (world s) ++ [(v, o)]) (world s)).
  assert (Hq0 : Forall (fun e : Z * option Z => e.1 < v) (pending (world s))).
  { eapply Forall_impl; [exact Hq|]. intros e He. cbn in He. subst v. lia. }
  assert (Ho : is_Some o) by (subst o; apply fmap_is_Some; exact Hlat).
  rewrite WaitForFenceValue_unfold; cbn zeta.
  cbn [world globals calls Fence_GetCompletedValue Fence_SetEventOnCompletion
       Os_WaitForSingleObject sim_engine].
  unfold sim_GetCompletedValue at 1.
  destruct (Z.ltb_spec (completed (settle w1)) v) as [Hbelow | Habove];
    [|eexists; reflexivity].
  unfold sim_SetEventOnCompletion.
  change (device_removed w1) with (device_removed (world s)). rewrite Hrm.
  destruct (Z.leb_spec v (completed (settle w1))) as [Hge|_]; [lia|].
  cbn [fst snd]. change (FAILED S_OK) with false. cbv iota.
  rewrite default_duration_is_INFINITE.
  unfold sim_WaitForSingleObject. rewrite Z.eqb_refl.
  cbn [pending with_armed].
  destruct (wait_loop_honoured v h (pending (settle w1))
              (with_armed (armed (settle w1) ++ [(v, h)]) (settle w1)))
    as [w' Hw'].
  - unfold settle. cbn [pending w1 with_pending].
    apply gpu_run_honoured, Forall_app. split; [exact Hhon|].
    constructor; [exact Ho | constructor].
  - right. split.
    + cbn [armed with_armed]. apply elem_of_app. right. apply list_elem_of_here.
    + exists (v, o). split; [|cbn; lia].
      destruct (gpu_run_last v o (clock w1) (pending (world s)) w1 Hq0)
        as [(q1 & Hq1 & _) | [_ Hdone]];
        [|unfold settle in Hbelow; cbn [pending w1 with_pending] in Hbelow; lia].
      unfold settle. cbn [pending w1 with_pending] in *. fold w1. rewrite Hq1.
      apply elem_of_app. right. apply list_elem_of_here.
  - rewrite Hw'. eexists; reflexivity.
Qed.

(** The wait without deadline, entered with registrations for [v] only on
    its event, leaves the event idle and the queue a part of what it was. *)
Lemma wait_loop_restores_idle (v : Z) (h : HANDLE) (P : Z * option Z -> Prop)
      (q : list (Z * option Z)) (w w' : GPU) (r : Z) :
  (h ∈ signaled w -> forall v', (v', h) ∉ armed w) ->
  (forall v', (v', h) ∈ armed w -> v' = v) ->
  Forall P q ->
  wait_loop h None q w = Some (r, w') ->
  idle h w' /\ Forall P (pending w').
Proof.
  revert w. induction q as [|[x [t|]] q IH]; intros w Hs Ha HP;
    cbn [wait_loop]; case_bool_decide as Hin; intros Heq; try discriminate;
    try (inversion Heq; subst; clear Heq; split; [|exact HP]; split;
         [cbn [signaled with_signaled]; rewrite list_elem_of_filter; tauto
         |exact (Hs Hin)]).
  inversion HP as [|? ? _ HP']; subst.
  eapply IH; [| |exact HP'|exact Heq].
  - intros Hs2 v' Hv'. apply execute_armed in Hv' as [Hlt Hv'].
    apply execute_signaled in Hs2 as [Hs2 | (v2 & Hv2 & Hle)]; [contradiction|].
    cbn [fst armed with_clock] in *.
    pose proof (Ha v' Hv') as ->. pose proof (Ha v2 Hv2) as ->. lia.
  - intros v' Hv'. apply execute_armed in Hv' as [_ Hv']. exact (Ha v' Hv').
Qed.

(** A wait on the event with the infinite timeout keeps the device in
    sync. *)
Lemma WaitForFenceValue_in_sync (v : Z) (h : HANDLE) (d : Z) (s s' : State GPU) :
  in_sync h s ->
  to_DWORD d = INFINITE ->
  WaitForFenceValue v h d s = (Returned tt, s') ->
  in_sync h s' /\ counter s' = counter s.
Proof.
  intros (Hc & Hidle & Hq) Hd.
  rewrite WaitForFenceValue_unfold; cbn zeta.
  cbn [Fence_GetCompletedValue Fence_SetEventOnCompletion Os_WaitForSingleObject
       sim_engine].
  destruct (_ <? _) eqn:Hlt;
    [|intros Heq; inversion Heq; subst; split; [split; [|split]; assumption | reflexivity]].
  apply Z.ltb_lt in Hlt. unfold sim_GetCompletedValue in Hlt.
  unfold sim_SetEventOnCompletion.
  destruct (device_removed (world s)); [discriminate|].
  destruct (Z.leb_spec v (completed (settle (world s)))) as [Hge|_]; [lia|].
  cbn [fst snd]. change (FAILED S_OK) with false. cbv iota.
  rewrite Hd. unfold sim_WaitForSingleObject. rewrite Z.eqb_refl.
  set (w2 := settle (world s)) in *.
  assert (Hidle2 : idle h w2) by (apply gpu_run_idle; exact Hidle).
  assert (Hq2 : Forall (fun e : Z * option Z => e.1 <= counter s) (pending w2)).
  { apply gpu_run_pending. exact Hq. }
  cbn [pending with_armed].
  destruct (wait_loop h None (pending w2) _) as [[x w']|] eqn:Hwait; [|discriminate].
  intros Heq; inversion Heq; subst s'; clear Heq.
  eapply (wait_loop_restores_idle v) in Hwait as [Hidle' Hq']; [| | |exact Hq2].
  - split; [|reflexivity]. split; [exact Hc|]. split; assumption.
  - intros Hin. exfalso. apply Hidle2. exact Hin.
  - intros v' Hv'. cbn [armed with_armed] in Hv'.
    apply elem_of_app in Hv' as [Hv' | Hv'].
    + exfalso. eapply Hidle2. exact Hv'.
    + apply list_elem_of_singleton in Hv'. congruence.
Qed.

(** Every state the program reaches from its start through signals,
    flushes and waits without deadline, on the one event, is in sync, and
    its counter is at most the number of operations. *)
Lemma run_ops_in_sync (h : HANDLE) (ops : list op) (s s' : State GPU) :
  Forall (on_event h) ops ->
  in_sync h s ->
  counter s + Z.of_nat (length ops) <= UINT64_MAX ->
  run_ops ops s = (Returned tt, s') ->
  in_sync h s' /\ counter s' <= counter s + Z.of_nat (length ops).
Proof.
  intros Hops. revert s. induction Hops as [|o ops Ho _ IH]; intros s Hsync Hn.
  - cbn. intros Heq; inversion Heq; subst. split; [exact Hsync | lia].
  - cbn [run_ops length] in *. unfold bind at 1.
    destruct (run_op o s) as [[[]| e |] s1] eqn:Hop; try discriminate.
    intros Hrun.
    assert (Hstep : in_sync h s1 /\ counter s1 <= counter s + 1).
    { destruct o as [|v h' d|h']; cbn [run_op on_event] in *.
      - unfold bind in Hop.
        destruct (Signal s) as [[v| e |] s2] eqn:Hs; try discriminate.
        inversion Hop; subst s2.
        pose proof (Signal_returns_counter _ _ _ Hs) as [_ Hv'].
        apply (Signal_in_sync h) in Hs as [Hv Hs]; [|exact Hsync|lia].
        split; [exact Hs | lia].
      - destruct Ho as [-> Hd].
        apply (WaitForFenceValue_in_sync v h d) in Hop as [Hs Hc]; [|assumption..].
        split; [exact Hs | lia].
      - subst h'.
        apply (Flush_in_sync h) in Hop as (Hc & _ & Hs); [|exact Hsync|lia].
        split; [exact Hs | lia]. }
    destruct Hstep as [Hsync1 Hc1].
    destruct (IH s1 Hsync1 ltac:(lia) Hrun) as [Hsync' Hc'].
    split; [exact Hsync' | lia].
Qed.

(** C4, as amended.  Take any run of the program on the simulated device
    from its start: fewer than 2^64 - 1 signals, flushes and waits without
    deadline, on the one fence event, all of which returned.  In the state
    it reaches, when [Flush] returns, the completed value of the fence is
    at or above the counter as it was when [Flush] was called; it is at
    the new counter, the old one plus 1.  And [Flush] does return when the
    device is there and the GPU gets to every signal of the queue and to
    the new one.  The wait of [Flush] has no deadline, so no timeout cuts
    it short. *)
Theorem Flush_completes (h : HANDLE) (lat : Z -> option Z) (ops : list op)
        (s : State GPU) :
  Forall (on_event h) ops ->
  Z.of_nat (length ops) < UINT64_MAX ->
  run_ops ops (start (fresh_gpu lat)) = (Returned tt, s) ->
  (forall s', Flush h s = (Returned tt, s') ->
     counter s <= sim_GetCompletedValue (world s') /\
     counter s' = counter s + 1 /\
     counter s' <= sim_GetCompletedValue (world s')) /\
  (device_removed (world s) = false ->
   honoured (pending (world s)) ->
   is_Some (latency (world s) (counter s + 1)) ->
   exists s', Flush h s = (Returned tt, s')).
Proof.
  intros Hops Hlen Hrun.
  destruct (run_ops_in_sync h ops _ s Hops (start_in_sync h lat)) as [Hsync Hc];
    [cbn; lia | exact Hrun |].
  assert (Hlt : counter s < UINT64_MAX) by (cbn in Hc; lia).
  split.
  - intros s' Hflush.
    destruct (Flush_in_sync h s s' Hsync Hlt Hflush) as (Hc' & Hdone & _).
    split; [lia|]. split; assumption.
  - intros Hrm Hhon Hlat. apply Flush_returns; assumption.
Qed.

(** C5, as amended.  On a device that is there, with the event idle and a
    GPU that never brings the fence to the target [v], a wait with a
    duration of [d] milliseconds, [0 <= d < 2^32 - 1], returns normally
    when [d] milliseconds have passed: the result of the OS wait,
    [WAIT_TIMEOUT], is logged and dropped, nothing is thrown, and the
    fence is still below [v]. *)
Theorem WaitForFenceValue_times_out (v : Z) (h : HANDLE) (d : Z) (s : State GPU) :
  idle h (world s) ->
  device_removed (world s) = false ->
  sim_GetCompletedValue (world s) < v ->
  reaches v (pending (world s)) = false ->
  0 <= d < INFINITE ->
  exists s',
    WaitForFenceValue v h d s = (Returned tt, s') /\
    clock (world s') = clock (world s) + d /\
    sim_GetCompletedValue (world s') < v /\
    globals s' = globals s /\
    calls s' = calls s ++ [CallGetCompletedValue (sim_GetCompletedValue (world s));
                           CallSetEventOnCompletion v h S_OK;
                           CallWaitForSingleObject h d (Some WAIT_TIMEOUT)].
Proof.
  intros Hidle Hrm Hc Hr Hd.
  rewrite WaitForFenceValue_unfold; cbn zeta.
  cbn [Fence_GetCompletedValue Fence_SetEventOnCompletion Os_WaitForSingleObject
       sim_engine].
  destruct (Z.ltb_spec (sim_GetCompletedValue (world s)) v) as [_|Hge]; [|lia].
  unfold sim_SetEventOnCompletion. rewrite Hrm.
  unfold sim_GetCompletedValue in Hc.
  destruct (Z.leb_spec v (completed (settle (world s)))) as [Hge|_]; [lia|].
  cbn [fst snd]. change (FAILED S_OK) with false. cbv iota.
  rewrite (to_DWORD_small d) by (unfold INFINITE in Hd; lia).
  unfold sim_WaitForSingleObject.
  destruct (Z.eqb_spec d INFINITE) as [Heq|_]; [lia|].
  set (w2 := settle (world s)) in *.
  assert (Hr2 : reaches v (pending w2) = false)
    by (apply gpu_run_reaches; exact Hr).
  assert (Hclock : clock w2 = clock (world s)) by apply gpu_run_frame.
  assert (Hidle2 : idle h w2) by (apply gpu_run_idle; exact Hidle).
  cbn [pending clock with_armed]. rewrite Hclock.
  destruct (wait_loop_expires v h (clock (world s) + d) (pending w2)
              (with_armed (armed w2 ++ [(v, h)]) w2))
    as (w' & Hwait & Hclock' & Hc' & Hr'); [| |exact Hc|exact Hr2|].
  - apply Hidle2.
  - intros v' Hv'. cbn [armed with_armed] in Hv'.
    apply elem_of_app in Hv' as [Hv' | Hv'].
    + exfalso. eapply Hidle2. exact Hv'.
    + apply list_elem_of_singleton in Hv'. inversion Hv'. lia.
  - rewrite Hwait. eexists. split; [reflexivity|]. cbn [world globals calls].
    split; [exact Hclock'|]. split; [|split].
    + apply gpu_run_below; assumption.
    + reflexivity.
    + rewrite <- app_assoc. reflexivity.
Qed.

(** The blocking path on the simulated device, entered with the event
    idle: when the call returns, the fence stands at the target or above,
    or the timeout has run out. *)
Lemma sim_wait_ends (v : Z) (h : HANDLE) (d : Z) (s s' : State GPU) :
  idle h (world s) ->
  sim_GetCompletedValue (world s) < v ->
  WaitForFenceValue v h d s = (Returned tt, s') ->
  v <= completed (world s') \/
  (to_DWORD d <> INFINITE /\ clock (world s') = clock (world s) + to_DWORD d).
Proof.
  intros Hidle Hc.
  rewrite WaitForFenceValue_unfold; cbn zeta.
  cbn [Fence_GetCompletedValue Fence_SetEventOnCompletion Os_WaitForSingleObject
       sim_engine].
  destruct (Z.ltb_spec (sim_GetCompletedValue (world s)) v) as [_|Hge]; [|lia].
  unfold sim_SetEventOnCompletion.
  destruct (device_removed (world s)); [discriminate|].
  unfold sim_GetCompletedValue in Hc.
  destruct (Z.leb_spec v (completed (settle (world s)))) as [Hge|_]; [lia|].
  cbn [fst snd]. change (FAILED S_OK) with false. cbv iota.
  unfold sim_WaitForSingleObject.
  set (w2 := settle (world s)) in *.
  assert (Hclock : clock w2 = clock (world s)) by apply gpu_run_frame.
  assert (Hidle2 : idle h w2) by (apply gpu_run_idle; exact Hidle).
  cbn [pending clock with_armed]. rewrite Hclock.
  destruct (wait_loop h _ (pending w2) _) as [[x w']|] eqn:Hwait; [|discriminate].
  intros Heq; inversion Heq; subst s'; clear Heq. cbn [world].
  apply (wait_loop_ends v) in Hwait as [[_ Hdone] | [_ Hdl]].
  - left. exact Hdone.
  - right. destruct (Z.eqb_spec (to_DWORD d) INFINITE) as [_|Hne]; [discriminate|].
    split; [exact Hne|]. inversion Hdl. reflexivity.
  - intros Hin. exfalso. apply Hidle2. exact Hin.
  - intros v' Hv'. cbn [armed with_armed] in Hv'.
    apply elem_of_app in Hv' as [Hv' | Hv'].
    + exfalso. eapply Hidle2. exact Hv'.
    + apply list_elem_of_singleton in Hv'. inversion Hv'. lia.
Qed.

(** A wait that timed out leaves its registration behind: on a device
    that takes 5 ms per unit of fence value, a wait for 1 gives up after
    1 ms; the later wait for 2, without deadline, is released at 5 ms by
    the first registration, with the fence at 1.  This is why [idle] is
    a hypothesis of [sim_wait_ends] and of the timed wait of C5, and why
    C4 is about runs whose waits have no deadline. *)
Example timed_out_wait_leaves_event_armed :
  let program : M GPU unit :=
    let! v1 := Signal in
    do! WaitForFenceValue v1 the_event 1 in
    let! v2 := Signal in
    WaitForFenceValue v2 the_event milliseconds_max in
  let r := program (start (fresh_gpu (fun v => Some (5 * v)))) in
  r.1 = Returned tt /\ clock (world r.2) = 5 /\ completed (world r.2) = 1 /\
  counter r.2 = 2.
Proof. vm_compute. repeat split; reflexivity. Qed.

(** A wait with a deadline always ends, and not after the deadline. *)
Lemma wait_loop_deadline (h : HANDLE) (dl : Z) (q : list (Z * option Z)) (w : GPU) :
  clock w <= dl ->
  exists r w', wait_loop h (Some dl) q w = Some (r, w') /\ clock w' <= dl.
Proof.
  revert w. induction q as [|[x [t|]] q IH]; intros w Hc; cbn [wait_loop];
    case_bool_decide as Hin;
    try (do 2 eexists; split; [reflexivity|]; cbn; lia).
  destruct (Z.ltb_spec dl (Z.max t (clock w))) as [Hlt|Hge].
  - do 2 eexists; split; [reflexivity|]. cbn; lia.
  - apply IH. cbn. lia.
Qed.

(** The blocking path on the simulated device, with a timeout other than
    [INFINITE]: the call returns, and no later than the timeout. *)
Lemma sim_wait_deadline (v : Z) (h : HANDLE) (d : Z) (s : State GPU) :
  device_removed (world s) = false ->
  sim_GetCompletedValue (world s) < v ->
  to_DWORD d <> INFINITE ->
  exists s',
    WaitForFenceValue v h d s = (Returned tt, s') /\
    clock (world s') <= clock (world s) + to_DWORD d.
Proof.
  intros Hdev Hc Hd.
  rewrite WaitForFenceValue_unfold; cbn zeta.
  cbn [Fence_GetCompletedValue Fence_SetEventOnCompletion Os_WaitForSingleObject
       sim_engine].
  destruct (Z.ltb_spec (sim_GetCompletedValue (world s)) v) as [_|Hge]; [|lia].
  unfold sim_SetEventOnCompletion. rewrite Hdev.
  unfold sim_GetCompletedValue in Hc.
  destruct (Z.leb_spec v (completed (settle (world s)))) as [Hge|_]; [lia|].
  cbn [fst snd]. change (FAILED S_OK) with false. cbv iota.
  unfold sim_WaitForSingleObject.
  set (w2 := settle (world s)) in *.
  assert (Hclock : clock w2 = clock (world s)) by apply gpu_run_frame.
  cbn [pending clock with_armed]. rewrite Hclock.
  destruct (Z.eqb_spec (to_DWORD d) INFINITE) as [He|_]; [contradiction|].
  assert (Hpos : 0 <= to_DWORD d).
  { unfold to_DWORD, wrap32. apply Z.mod_pos_bound. lia. }
  destruct (wait_loop_deadline h (clock (world s) + to_DWORD d) (pending w2)
              (with_armed (armed w2 ++ [(v, h)]) w2)) as (x & w' & Hwait & Hle).
  { cbn [clock with_armed]. lia. }
  rewrite Hwait. eexists. split; [reflexivity|]. exact Hle.
Qed.

(** C1, as amended.  [WaitForFenceValue] first queries the fence.  When
    the completed value is already at or above the target [v], it returns
    at once: the query is its only call, nothing is registered, the thread
    does not block; so waiting again, for the same or a smaller target,
    returns at once too, without an error.  When the completed value is
    below [v], it registers exactly [v] on the event handle and blocks in
    [WaitForSingleObject] on that handle with the duration cast to
    [DWORD], that is [duration mod 2^32] milliseconds, [2^32 - 1] meaning
    no timeout.  On the simulated device, entered with the event idle (no
    earlier wait has left it signaled or registered): when the call
    returns, the fence stands at [v] or above, or exactly
    [duration mod 2^32] milliseconds have passed and that is not
    [2^32 - 1]; with a timeout other than [2^32 - 1] the call does return,
    no later than the timeout; and a call that never returns has the
    timeout [2^32 - 1]. *)
Theorem WaitForFenceValue_returns_at_once_or_blocks :
  (forall (W : Type) (E : Engine W) (v : Z) (h : HANDLE) (d : Z) (s : State W),
     let c := Fence_GetCompletedValue (world s) in
     (v <= c ->
      WaitForFenceValue v h d s = (Returned tt, log (CallGetCompletedValue c) s) /\
      forall (n : nat) (v' : Z), v' <= v ->
        waits n v' h d s =
        (Returned tt,
         mkState (globals s) (calls s ++ replicate n (CallGetCompletedValue c)) (world s))) /\
     (c < v ->
      let r := Fence_SetEventOnCompletion v h (world s) in
      let l := calls s ++ [CallGetCompletedValue c; CallSetEventOnCompletion v h r.1] in
      FAILED r.1 = false ->
      match Os_WaitForSingleObject h (to_DWORD d) r.2 with
      | Some (x, w) =>
          WaitForFenceValue v h d s =
          (Returned tt,
           mkState (globals s) (l ++ [CallWaitForSingleObject h (to_DWORD d) (Some x)]) w)
      | None =>
          WaitForFenceValue v h d s =
          (Blocked,
           mkState (globals s) (l ++ [CallWaitForSingleObject h (to_DWORD d) None]) r.2)
      end)) /\
  (forall (v : Z) (h : HANDLE) (d : Z) (s : State GPU),
     idle h (world s) ->
     device_removed (world s) = false ->
     sim_GetCompletedValue (world s) < v ->
     (forall s', WaitForFenceValue v h d s = (Returned tt, s') ->
        v <= completed (world s') \/
        (to_DWORD d <> INFINITE /\
         clock (world s') = clock (world s) + to_DWORD d)) /\
     (to_DWORD d <> INFINITE ->
      exists s', WaitForFenceValue v h d s = (Returned tt, s') /\
                 clock (world s') <= clock (world s) + to_DWORD d) /\
     ((WaitForFenceValue v h d s).1 = Blocked -> to_DWORD d = INFINITE)).
Proof.
  split.
  - intros W E v h d s. apply WaitForFenceValue_paths.
  - intros v h d s Hidle Hdev Hc. split; [|split].
    + intros s' Hret. eapply sim_wait_ends; eassumption.
    + intros Hd. apply sim_wait_deadline; assumption.
    + intros Hb. destruct (Z.eq_dec (to_DWORD d) INFINITE) as [He|Hne]; [exact He|].
      destruct (sim_wait_deadline v h d s Hdev Hc Hne) as (s' & Hret & _).
      rewrite Hret in Hb. discriminate.
Qed.

(** C10. The default duration, [milliseconds::max() = 2^63 - 1], cast to
    [DWORD] is [2^32 - 1 = 0xFFFFFFFF], the [INFINITE] of the OS wait.  So
    whenever a wait with the default duration enters the OS wait, it
    passes [INFINITE], on every engine; and on the simulated device such a
    wait never ends by [WAIT_TIMEOUT]: the call returns after the event
    was set, or not at all. *)
Theorem default_duration_never_times_out :
  milliseconds_max mod 2 ^ 32 = 2 ^ 32 - 1 /\
  to_DWORD milliseconds_max = 2 ^ 32 - 1 /\
  to_DWORD milliseconds_max = INFINITE /\
  (forall (W : Type) (E : Engine W) (v : Z) (h : HANDLE) (s : State W),
     exists l,
       calls (WaitForFenceValue v h milliseconds_max s).2 = calls s ++ l /\
       forall hx ms r, CallWaitForSingleObject hx ms r ∈ l -> ms = INFINITE) /\
  (forall (h : HANDLE) (w w' : GPU) (r : Z),
     sim_WaitForSingleObject h (to_DWORD milliseconds_max) w = Some (r, w') ->
     r = WAIT_OBJECT_0) /\
  (forall (v : Z) (h : HANDLE) (s : State GPU),
     let r := WaitForFenceValue v h milliseconds_max s in
     (r.1 = Returned tt \/ r.1 = Blocked) \/ device_removed (world s) = true) /\
  (forall (v : Z) (h : HANDLE) (s : State GPU),
     exists l,
       calls (WaitForFenceValue v h milliseconds_max s).2 = calls s ++ l /\
       forall hx ms, CallWaitForSingleObject hx ms (Some WAIT_TIMEOUT) ∉ l).
Proof.
  assert (Hsim : forall (h : HANDLE) (w w' : GPU) (r : Z),
             sim_WaitForSingleObject h (to_DWORD milliseconds_max) w = Some (r, w') ->
             r = WAIT_OBJECT_0).
  { intros h w w' r. rewrite default_duration_is_INFINITE.
    unfold sim_WaitForSingleObject. rewrite Z.eqb_refl. apply wait_loop_no_deadline. }
  split; [reflexivity|]. split; [reflexivity|]. split; [reflexivity|].
  split; [|split; [exact Hsim|split]].
  - intros W E v h s. rewrite WaitForFenceValue_unfold; cbn zeta.
    rewrite default_duration_is_INFINITE.
    destruct (_ <? _); [destruct (FAILED _);
                        [|destruct (Os_WaitForSingleObject _ _ _) as [[x w]|]]|];
      cbn [snd calls log]; rewrite <- ?app_assoc;
      (eexists; split; [reflexivity|]); intros hx ms r Hin; cbn [app] in Hin;
      in_calls Hin ltac:(first [discriminate | inversion Hin; reflexivity]).
  - intros v h s r. subst r. rewrite WaitForFenceValue_unfold; cbn zeta.
    destruct (_ <? _); [|left; left; reflexivity].
    cbn [Fence_SetEventOnCompletion sim_engine]. unfold sim_SetEventOnCompletion.
    destruct (device_removed (world s)); [right; reflexivity|]. left.
    destruct (_ <=? _); cbn [fst snd]; change (FAILED S_OK) with false; cbv iota;
      destruct (Os_WaitForSingleObject _ _ _) as [[x w]|]; cbn [fst]; auto.
  - intros v h s. rewrite WaitForFenceValue_unfold; cbn zeta.
    destruct (_ <? _); [destruct (FAILED _);
                        [|destruct (Os_WaitForSingleObject _ _ _) as [[x w]|] eqn:Hw]|];
      cbn [snd calls log]; rewrite <- ?app_assoc;
      (eexists; split; [reflexivity|]); intros hx ms Hin; cbn [app] in Hin;
      in_calls Hin ltac:(first [discriminate
                               | inversion Hin; subst; apply Hsim in Hw; discriminate]).
Qed.

(** ** The render loop *)

Section RenderLoop.
Context {W : Type} {E : Engine W}.















End RenderLoop.

(** ** The command line *)

Section CommandLineFacts.
Variable wcstol : string -> Z.

Lemma and_then_height (p : parse) (k : nat -> Globals -> parse) (z : Z) :
  height_of p = z ->
  (forall i g, g_ClientHeight g = z -> height_of (k i g) = z) ->
  height_of (and_then p k) = z.
Proof. destruct p as [i g|g]; intros Hp Hk; cbn; [apply Hk|]; exact Hp. Qed.

Lemma width_option_height (argv : list string) (i : nat) (g : Globals) :
  height_of (width_option wcstol argv i g) = g_ClientHeight g.
Proof.
  unfold width_option, arg. destruct (argv !! i) as [a|]; [|reflexivity].
  destruct (_ || _); [|reflexivity].
  destruct (argv !! S i); reflexivity.
Qed.

Lemma height_option_height (argv : list string) (i : nat) (g : Globals) :
  height_of (height_option wcstol argv i g) = g_ClientHeight g.
Proof.
  unfold height_option, arg. destruct (argv !! i) as [a|]; [|reflexivity].
  destruct (_ || _); [|reflexivity].
  destruct (argv !! S i); reflexivity.
Qed.

Lemma warp_option_height (argv : list string) (i : nat) (g : Globals) :
  height_of (warp_option argv i g) = g_ClientHeight g.
Proof.
  unfold warp_option, arg. destruct (argv !! i) as [a|]; [|reflexivity].
  destruct (_ || _); reflexivity.
Qed.

Lemma loop_body_height (argv : list string) (i : nat) (g : Globals) :
  height_of (loop_body wcstol argv i g) = g_ClientHeight g.
Proof.
  unfold loop_body.
  apply and_then_height; [apply width_option_height|]. intros i1 g1 <-.
  apply and_then_height; [apply height_option_height|]. intros i2 g2 <-.
  apply warp_option_height.
Qed.

Lemma parse_loop_height (fuel : nat) (argv : list string) (i : nat) (g : Globals) :
  height_of (parse_loop wcstol fuel argv i g) = g_ClientHeight g.
Proof.
  revert i g. induction fuel as [|fuel IH]; intros i g; cbn [parse_loop];
    destruct (i <? length argv)%nat; try reflexivity.
  apply and_then_height; [apply loop_body_height|].
  intros i' g' <-. apply IH.
Qed.

(** The index never goes back in the body of the loop. *)
Lemma loop_body_index (argv : list string) (i j : nat) (g g' : Globals) :
  loop_body wcstol argv i g = Go j g' -> (i <= j)%nat.
Proof.
  unfold loop_body, width_option, height_option, warp_option, arg, and_then.
  repeat match goal with
         | |- context [match ?l !! ?k with _ => _ end] => destruct (l !! k)
         | |- context [if ?b then _ else _] => destruct b
         end;
    intros Heq; inversion Heq; lia.
Qed.

(** The loop ends by its test [i < argc], not for lack of rounds. *)
Lemma parse_loop_ends (fuel : nat) (argv : list string) (i j : nat) (g g' : Globals) :
  (length argv <= i + fuel)%nat ->
  parse_loop wcstol fuel argv i g = Go j g' ->
  (length argv <= j)%nat.
Proof.
  revert i g. induction fuel as [|fuel IH]; intros i g Hfuel; cbn [parse_loop];
    destruct (Nat.ltb_spec i (length argv)) as [Hlt|Hge];
    try (intros Heq; inversion Heq; lia).
  destruct (loop_body wcstol argv i g) as [i' g1|g1] eqn:Hbody; cbn [and_then];
    [|discriminate].
  apply loop_body_index in Hbody. apply IH. lia.
Qed.

(** C9.  Whatever the command line, [ParseCommandLineArgs] leaves
    [g_ClientHeight] as it was, also when the run stops at a read past the
    last argument; from the initial globals the height is 768 afterwards.
    The "-h" and "--height" options store the parsed argument in
    [g_ClientWidth], exactly as "-w" and "--width" do.  A run that is not
    stopped goes through all of [argv]. *)
Theorem ParseCommandLineArgs_keeps_height (argv : list string) (g : Globals) :
  g_ClientHeight (parsed_globals (ParseCommandLineArgs wcstol argv g)) = g_ClientHeight g /\
  g_ClientHeight (parsed_globals (ParseCommandLineArgs wcstol argv initial_globals)) = 768 /\
  (forall i a n,
     argv !! i = Some a -> argv !! S i = Some n ->
     a = "-h" \/ a = "--height" ->
     height_option wcstol argv i g = Go (S i) (set_ClientWidth (wrap32 (wcstol n)) g)) /\
  (forall i a n,
     argv !! i = Some a -> argv !! S i = Some n ->
     a = "-w" \/ a = "--width" ->
     width_option wcstol argv i g = Go (S i) (set_ClientWidth (wrap32 (wcstol n)) g)) /\
  (forall j g', ParseCommandLineArgs wcstol argv g = Go j g' -> (length argv <= j)%nat).
Proof.
  split; [apply parse_loop_height|].
  split; [apply (parse_loop_height (length argv) argv 0 initial_globals)|].
  split; [|split].
  - intros i a n Ha Hn Hopt. unfold height_option, arg. rewrite Ha, Hn.
    destruct Hopt as [-> | ->]; reflexivity.
  - intros i a n Ha Hn Hopt. unfold width_option, arg. rewrite Ha, Hn.
    destruct Hopt as [-> | ->]; reflexivity.
  - intros j g'. apply parse_loop_ends. lia.
Qed.

End CommandLineFacts.

(** ** Runs of signals only *)

Lemma gpu_run_not_due (q : list (Z * option Z)) (w : GPU) :
  Forall (fun e => e.2 = Some 5) q -> gpu_run 0 q w = with_pending q w.
Proof.
  destruct q as [|[x o] q]; intros Hq; [reflexivity|].
  inversion Hq as [|? ? Ho _]; subst. cbn in Ho. subst o. reflexivity.
Qed.

Lemma Signal_only_signalled (s : State GPU) :
  only_signalled (world s) ->
  exists s',
    Signal s = (Returned (wrap64 (counter s + 1)), s') /\
    counter s' = wrap64 (counter s + 1) /\
    only_signalled (world s').
Proof.
  intros (Hclock & Hcomp & Hrm & Harm & Hsig & Hlat & Hq).
  rewrite Signal_unfold; cbn zeta.
  cbn [Queue_Signal sim_engine]. unfold sim_Signal. rewrite Hrm.
  cbn [fst snd]. change (FAILED S_OK) with false. cbv iota.
  eexists. split; [reflexivity|]. split; [reflexivity|].
  cbn [world]. repeat split; try assumption.
  cbn [pending with_pending]. apply Forall_app. split; [exact Hq|].
  constructor; [|constructor]. cbn [snd]. rewrite Hlat, Hclock. reflexivity.
Qed.

(** From the start of the program on the steady device, [n] signals in a
    row all return, and leave the counter at [n] as long as [n] fits. *)
Lemma signals_from_start (n : nat) (s : State GPU) :
  only_signalled (world s) ->
  0 <= counter s ->
  counter s + Z.of_nat n <= UINT64_MAX ->
  exists s',
    run_ops (replicate n OpSignal) s = (Returned tt, s') /\
    counter s' = counter s + Z.of_nat n /\
    only_signalled (world s').
Proof.
  revert s. induction n as [|n IH]; intros s Hw H0 Hn.
  - exists s. split; [reflexivity|]. split; [lia | exact Hw].
  - destruct (Signal_only_signalled s Hw) as (s1 & Hs & Hc & Hw1).
    rewrite wrap64_small in Hc by lia.
    destruct (IH s1 Hw1 ltac:(lia) ltac:(lia)) as (s' & Hrun & Hc' & Hw').
    exists s'. split; [|split; [lia | exact Hw']].
    cbn [replicate run_ops run_op]. unfold bind. rewrite Hs.
    cbn [ret]. exact Hrun.
Qed.

Lemma start_only_signalled : only_signalled (world (start steady_gpu)).
Proof. repeat split; constructor. Qed.

(** The state after 2^64 - 1 signals. *)
Lemma counter_reaches_UINT64_MAX :
  exists s,
    run_ops (replicate (Z.to_nat UINT64_MAX) OpSignal) (start steady_gpu) = (Returned tt, s) /\
    counter s = UINT64_MAX /\
    only_signalled (world s).
Proof.
  assert (Hn : Z.of_nat (Z.to_nat UINT64_MAX) = UINT64_MAX)
    by (apply Z2Nat.id; unfold UINT64_MAX; lia).
  destruct (signals_from_start (Z.to_nat UINT64_MAX) (start steady_gpu)
              start_only_signalled) as (s & Hrun & Hc & Hw).
  - cbn [counter start globals initial_globals g_FenceValue]. lia.
  - cbn [counter start globals initial_globals g_FenceValue]. rewrite Hn. lia.
  - exists s. split; [exact Hrun|]. split; [|exact Hw].
    rewrite Hc, Hn. reflexivity.
Qed.

(** * Concrete runs *)

(** ** Where the claims as stated fail *)

Lemma only_signalled_fence (w : GPU) :
  only_signalled w -> sim_GetCompletedValue w = 0.
Proof.
  intros (Hclock & Hcomp & _ & _ & _ & _ & Hq).
  unfold sim_GetCompletedValue, settle. rewrite Hclock, gpu_run_not_due by exact Hq.
  exact Hcomp.
Qed.

(** C2 as stated fails at the end of the 64-bit range: from a counter of
    2^64 - 2, two calls of [Signal] return 2^64 - 1 and then 0, and the
    counter has gone down from 2^64 - 2 to 0.  The program gets there from
    its start: after 2^64 - 1 signals the next [Signal] returns 0 and
    takes the counter from 2^64 - 1 down to 0. *)
Lemma Signal_wraps_to_zero :
  (let s := with_counter (UINT64_MAX - 1) (start steady_gpu) in
   (signals 2 s).1 = Returned [UINT64_MAX; 0] /\
   counter (signals 2 s).2 = 0 /\
   counter (signals 2 s).2 < counter s) /\
  (exists s,
     run_ops (replicate (Z.to_nat UINT64_MAX) OpSignal) (start steady_gpu) = (Returned tt, s) /\
     (Signal s).1 = Returned 0 /\
     counter (Signal s).2 < counter s).
Proof.
  split; [vm_compute; repeat split; reflexivity|].
  destruct counter_reaches_UINT64_MAX as (s & Hrun & Hc & Hw).
  exists s. split; [exact Hrun|].
  destruct (Signal_only_signalled s Hw) as (s1 & Hs & Hc1 & _).
  rewrite Hs. cbn [fst snd]. rewrite Hc1, Hc.
  change (wrap64 (UINT64_MAX + 1)) with 0. split; reflexivity.
Qed.

(** C4 as stated fails at the end of the 64-bit range.  The counter is
    2^64 - 1, its signal is still in the queue and the fence stands at
    2^64 - 2; the device is in sync and the GPU gets to every signal.
    [Flush] signals the value 0, finds the fence not below 0 and returns
    at once: the completed value is below the counter of the call.  The
    program gets to such a state from its start, by 2^64 - 1 signals. *)
Lemma Flush_returns_early_at_UINT64_MAX :
  (let w := mkGPU 0 (UINT64_MAX - 1) [(UINT64_MAX, Some 5)] [] [] (fun _ => Some 5) false in
   let s := with_counter UINT64_MAX (start w) in
   in_sync the_event s /\
   honoured (pending (world s)) /\
   (Flush the_event s).1 = Returned tt /\
   sim_GetCompletedValue (world (Flush the_event s).2) < counter s) /\
  (exists s,
     run_ops (replicate (Z.to_nat UINT64_MAX) OpSignal) (start steady_gpu) = (Returned tt, s) /\
     honoured (pending (world s)) /\
     (Flush the_event s).1 = Returned tt /\
     sim_GetCompletedValue (world (Flush the_event s).2) < counter s).
Proof.
  split.
  - cbv zeta. split; [|split; [|split]].
    + split; [vm_compute; split; discriminate|]. split.
      * split; [apply not_elem_of_nil | intros v; apply not_elem_of_nil].
      * constructor; [vm_compute; discriminate | constructor].
    + constructor; [eexists; reflexivity | constructor].
    + vm_compute. reflexivity.
    + vm_compute. reflexivity.
  - destruct counter_reaches_UINT64_MAX as (s & Hrun & Hc & Hw).
    exists s. split; [exact Hrun|]. split.
    { destruct Hw as (_ & _ & _ & _ & _ & _ & Hq).
      eapply Forall_impl; [exact Hq|]. intros e He. rewrite He. eexists; reflexivity. }
    destruct (Signal_only_signalled s Hw) as (s1 & Hs & Hc1 & Hw1).
    rewrite Flush_unfold, Hs, Hc.
    change (wrap64 (UINT64_MAX + 1)) with 0.
    rewrite WaitForFenceValue_unfold; cbn zeta.
    cbn [Fence_GetCompletedValue sim_engine].
    rewrite (only_signalled_fence _ Hw1). cbn [fst snd Z.ltb Z.compare].
    split; [reflexivity|].
    cbn [world log]. rewrite (only_signalled_fence _ Hw1).
    unfold UINT64_MAX. lia.
Qed.

(** C1 as stated fails in its second half: the blocked wait ends neither
    by the fence reaching the target nor by the timeout running out.
    First, on a GPU that takes 5 ms per unit of fence value, a wait for 1
    gives up after 1 ms and leaves its registration on the event; the next
    wait, for 2 and without timeout, finds the fence below 2, blocks, and
    is released at 5 ms by that registration, with the fence at 1.
    Second, a duration of 2^32 ms is cast to a timeout of 0 ms: the wait
    for 1 returns at once, the clock where it was and the fence at 0.
    Third, a duration of 2^32 - 1 ms is [INFINITE]: on a GPU that never
    signals, the wait never returns. *)
Lemma wait_ends_short_of_fence_and_timeout :
  (let program : M GPU Z :=
     let! v1 := Signal in
     do! WaitForFenceValue v1 the_event 1 in
     Signal in
   let before := (program (start (fresh_gpu (fun v => Some (5 * v))))).2 in
   let after := WaitForFenceValue 2 the_event milliseconds_max before in
   clock (world before) = 1 /\
   sim_GetCompletedValue (world before) = 0 /\
   after.1 = Returned tt /\
   clock (world after.2) = 5 /\
   completed (world after.2) = 1 /\
   sim_GetCompletedValue (world after.2) = 1 /\
   to_DWORD milliseconds_max = INFINITE) /\
  (let before := (Signal (start steady_gpu)).2 in
   let after := WaitForFenceValue 1 the_event (2 ^ 32) before in
   sim_GetCompletedValue (world before) = 0 /\
   after.1 = Returned tt /\
   clock (world after.2) = clock (world before) /\
   sim_GetCompletedValue (world after.2) = 0) /\
  (let before := (Signal (start hung_gpu)).2 in
   (WaitForFenceValue 1 the_event (2 ^ 32 - 1) before).1 = Blocked).
Proof. vm_compute. repeat split; reflexivity. Qed.

(** C5 as stated fails.  On a GPU that never reaches the target 10, the
    wait with a timeout of 1 ms returns normally after 1 ms, with the
    fence still at 0: no exception is thrown, and the outcome is the one
    of the same wait on a GPU that reaches 10 within the millisecond.
    And with the finite duration of 2^32 - 1 ms the wait never returns. *)
Lemma timed_out_wait_looks_satisfied :
  let stalled := (signals 10 (start hung_gpu)).2 in
  let prompt := (signals 10 (start (fresh_gpu (fun _ => Some 1)))).2 in
  reaches 10 (pending (world stalled)) = false /\
  (WaitForFenceValue 10 the_event 1 stalled).1 = Returned tt /\
  clock (world (WaitForFenceValue 10 the_event 1 stalled).2) = 1 /\
  sim_GetCompletedValue (world (WaitForFenceValue 10 the_event 1 stalled).2) = 0 /\
  (WaitForFenceValue 10 the_event 1 prompt).1 = Returned tt /\
  sim_GetCompletedValue (world (WaitForFenceValue 10 the_event 1 prompt).2) = 10 /\
  (WaitForFenceValue 10 the_event 1 stalled).1 = (WaitForFenceValue 10 the_event 1 prompt).1 /\
  (WaitForFenceValue 10 the_event (2 ^ 32 - 1) stalled).1 = Blocked.
Proof. vm_compute. repeat split; reflexivity. Qed.


(** ** The theorems at concrete inputs *)

Lemma WaitForFenceValue_returns_at_once_or_blocks_witness :
  WaitForFenceValue 0 the_event 1 (start steady_gpu) =
  (Returned tt, log (CallGetCompletedValue 0) (start steady_gpu)) /\
  (WaitForFenceValue 1 the_event 1 (signals 1 (start steady_gpu)).2).1 = Returned tt /\
  (exists s',
     WaitForFenceValue 1 the_event 9 (signals 1 (start steady_gpu)).2 = (Returned tt, s') /\
     clock (world s') <= 9).
Proof.
  destruct WaitForFenceValue_returns_at_once_or_blocks as [Hany Hsim].
  split; [|split].
  - refine (proj1 (proj1 (Hany GPU sim_engine 0 the_event 1 (start steady_gpu)) _)).
    vm_compute. discriminate.
  - pose proof (proj2 (Hany GPU sim_engine 1 the_event 1 (signals 1 (start steady_gpu)).2)
                      eq_refl eq_refl) as Hw.
    match type of Hw with
    | match ?o with _ => _ end =>
        let o' := eval vm_compute in o in change o with o' in Hw
    end.
    cbv beta iota in Hw. rewrite Hw. reflexivity.
  - refine (proj1 (proj2 (Hsim 1 the_event 9 (signals 1 (start steady_gpu)).2 _ _ _)) _).
    + split; [apply not_elem_of_nil | intros v; apply not_elem_of_nil].
    + reflexivity.
    + vm_compute. reflexivity.
    + vm_compute. discriminate.
Defined.

Lemma Signal_increments_counter_witness :
  (signals 3 (start steady_gpu)).1 = Returned [1; 2; 3] /\
  counter (start steady_gpu) <=
  counter (run_ops [OpSignal; OpFlush the_event; OpWaitForFenceValue 1 the_event 1]
                   (start steady_gpu)).2.
Proof.
  destruct (Signal_increments_counter
              (start steady_gpu) 3
              [OpSignal; OpFlush the_event; OpWaitForFenceValue 1 the_event 1])
    as (_ & _ & Hsig & _ & Hops); [vm_compute; discriminate..|].
  split; [|exact Hops].
  destruct (signals 3 (start steady_gpu)) as [[vs| e |] s'] eqn:Hrun;
    [|vm_compute in Hrun; discriminate Hrun..].
  rewrite (Hsig vs s' eq_refl). reflexivity.
Defined.

Lemma Flush_is_wait_of_signal_witness :
  Flush the_event (start steady_gpu) =
  WaitForFenceValue 1 the_event milliseconds_max (Signal (start steady_gpu)).2.
Proof.
  destruct (Flush_is_wait_of_signal the_event (start steady_gpu))
    as (_ & _ & _ & Hs & _).
  apply (Hs 1 (Signal (start steady_gpu)).2). vm_compute. reflexivity.
Defined.

Lemma Flush_completes_witness :
  exists s s',
    run_ops [OpSignal; OpFlush the_event] (start steady_gpu) = (Returned tt, s) /\
    Flush the_event s = (Returned tt, s') /\
    counter s <= sim_GetCompletedValue (world s').
Proof.
  set (s := (run_ops [OpSignal; OpFlush the_event] (start steady_gpu)).2).
  assert (Hrun : run_ops [OpSignal; OpFlush the_event] (start (fresh_gpu (fun _ => Some 5))) =
                 (Returned tt, s)) by (vm_compute; reflexivity).
  assert (Hops : Forall (on_event the_event) [OpSignal; OpFlush the_event])
    by (repeat constructor).
  destruct (Flush_completes the_event (fun _ => Some 5) [OpSignal; OpFlush the_event] s
              Hops eq_refl Hrun) as [Hsafe Hlive].
  destruct Hlive as [s' Hs']; [reflexivity | constructor | eexists; reflexivity |].
  exists s, s'. split; [exact Hrun|]. split; [exact Hs' | apply (Hsafe s' Hs')].
Defined.

Lemma WaitForFenceValue_times_out_witness :
  exists s', WaitForFenceValue 10 the_event 1 (start hung_gpu) = (Returned tt, s') /\
             clock (world s') = 1.
Proof.
  destruct (WaitForFenceValue_times_out 10 the_event 1 (start hung_gpu))
    as (s' & Hrun & Hclock & _).
  - split; [apply not_elem_of_nil | intros v; apply not_elem_of_nil].
  - reflexivity.
  - vm_compute. reflexivity.
  - reflexivity.
  - vm_compute. split; [discriminate | reflexivity].
  - exists s'. split; [exact Hrun | exact Hclock].
Defined.

Lemma device_errors_are_thrown_witness :
  (Signal (start removed_gpu)).1 = Thrown (DeviceError DXGI_ERROR_DEVICE_REMOVED) /\
  (Flush the_event (start removed_gpu)).1 = Thrown (DeviceError DXGI_ERROR_DEVICE_REMOVED) /\
  (WaitForFenceValue 1 the_event 1 (start removed_gpu)).1 =
  Thrown (DeviceError DXGI_ERROR_DEVICE_REMOVED).
Proof.
  destruct (device_errors_are_thrown 1 the_event 1 (start removed_gpu))
    as (Hs & Hw & _).
  destruct (Hs eq_refl) as [HS HF].
  specialize (Hw eq_refl eq_refl).
  rewrite HS, HF, Hw. repeat split; reflexivity.
Defined.

Lemma WaitForFenceValue_uses_its_target_witness :
  WaitForFenceValue 1 the_event 1 (with_counter 2 (start steady_gpu)) =
  ((WaitForFenceValue 1 the_event 1 (start steady_gpu)).1,
   with_counter 2 (WaitForFenceValue 1 the_event 1 (start steady_gpu)).2).
Proof.
  apply (WaitForFenceValue_uses_its_target 1 the_event 1 2 (start steady_gpu)).
Defined.


Lemma ParseCommandLineArgs_keeps_height_witness :
  g_ClientHeight
    (parsed_globals (ParseCommandLineArgs decimal ["prog"; "-h"; "600"] initial_globals)) = 768 /\
  height_option decimal ["prog"; "-h"; "600"] 1 initial_globals =
  Go 2 (set_ClientWidth 600 initial_globals).
Proof.
  destruct (ParseCommandLineArgs_keeps_height decimal ["prog"; "-h"; "600"] initial_globals)
    as (_ & H768 & Hh & _).
  split; [exact H768|].
  apply (Hh 1%nat "-h" "600" eq_refl eq_refl (or_introl eq_refl)).
Defined.

Lemma default_duration_never_times_out_witness :
  to_DWORD milliseconds_max = INFINITE /\
  (WaitForFenceValue 1 the_event milliseconds_max (start hung_gpu)).1 = Blocked.
Proof.
  destruct default_duration_never_times_out as (_ & _ & Hinf & _ & _ & Hout & _).
  split; [exact Hinf|].
  destruct (Hout 1 the_event (start hung_gpu)) as [[Hr | Hb] | Hrm].
  - vm_compute in Hr. discriminate Hr.
  - exact Hb.
  - discriminate Hrm.
Defined.

(** * More of main.cpp *)

(** ** Adapter selection *)

Lemma enumerate_chosen (l pre : list adapter) (cur r : option adapter) :
  chosen pre cur ->
  enumerate l (held_memory cur) cur = Returned r ->
  chosen (pre ++ l) r.
Proof.
  revert pre cur. induction l as [|a l IH]; intros pre cur Hpre; cbn [enumerate].
  - intros Heq; inversion Heq; subst. rewrite app_nil_r. exact Hpre.
  - replace (pre ++ a :: l) with ((pre ++ [a]) ++ l) by (rewrite <- app_assoc; reflexivity).
    fold (usable a).
    assert (Hm : 0 <= held_memory cur).
    { destruct cur as [c|]; cbn; [destruct Hpre; lia | lia]. }
    assert (Hold : forall (j : nat) b, pre !! j = Some b -> usable b = true ->
                     DedicatedVideoMemory b <= held_memory cur).
    { intros j b Hj Hb. destruct cur as [c|]; cbn.
      - destruct Hpre as (_ & k & _ & _ & Hmax). apply (Hmax j b Hj Hb).
      - apply (Hpre j b Hj Hb). }
    destruct (usable a && (held_memory cur <? DedicatedVideoMemory a)) eqn:Hcond.
    + apply andb_true_iff in Hcond as [Hu Hlt]. apply Z.ltb_lt in Hlt.
      unfold throw_if_failed. destruct (FAILED _); [discriminate|].
      apply (IH (pre ++ [a]) (Some a)).
      split; [lia|]. exists (length pre). split; [|split; [exact Hu|]].
      * rewrite lookup_app_r by lia. rewrite Nat.sub_diag. reflexivity.
      * intros j b Hj Hb. apply lookup_snoc_Some in Hj as [[Hlen Hj] | [-> ->]].
        -- specialize (Hold j b Hj Hb). lia.
        -- split; [lia | intros _; lia].
    + apply (IH (pre ++ [a]) cur).
      assert (Ha : usable a = true -> DedicatedVideoMemory a <= held_memory cur).
      { intros Hu. rewrite Hu in Hcond. cbn in Hcond. apply Z.ltb_ge in Hcond. exact Hcond. }
      destruct cur as [c|]; cbn in *.
      * destruct Hpre as (Hpos & k & Hk & Hc & Hmax).
        split; [exact Hpos|]. exists k. split; [|split; [exact Hc|]].
        -- apply lookup_app_l_Some. exact Hk.
        -- intros j b Hj Hb. apply lookup_snoc_Some in Hj as [[Hlen Hj] | [-> ->]].
           ++ apply (Hmax j b Hj Hb).
           ++ split; [apply Ha, Hb|]. intros _.
              apply lookup_lt_Some in Hk. lia.
      * intros j b Hj Hb. apply lookup_snoc_Some in Hj as [[Hlen Hj] | [-> ->]].
        -- apply (Hpre j b Hj Hb).
        -- apply Ha, Hb.
Qed.

Lemma enumerate_keeps (l : list adapter) (m : Z) (cur : option adapter) :
  (forall b, b ∈ l -> usable b = true -> DedicatedVideoMemory b <= m) ->
  enumerate l m cur = Returned cur.
Proof.
  induction l as [|a l IH]; intros Hl; cbn [enumerate]; [reflexivity|].
  fold (usable a).
  destruct (usable a) eqn:Hu; cbn [andb].
  - destruct (Z.ltb_spec m (DedicatedVideoMemory a)) as [Hlt|_].
    + specialize (Hl a (list_elem_of_here _ _) Hu). lia.
    + apply IH. intros b Hb. apply Hl. apply list_elem_of_further, Hb.
  - apply IH. intros b Hb. apply Hl. apply list_elem_of_further, Hb.
Qed.

(** X1.  On the hardware path, the adapter [GetAdapter] returns is the
    first, in the order of enumeration, of the adapters that are not
    software adapters and can create a D3D12 device, with the most
    dedicated video memory among them; it has some.  A null pointer
    returned means that no such adapter has any dedicated memory. *)
Theorem GetAdapter_picks_most_memory (sys : dxgi) (r : option adapter) :
  GetAdapter false sys = Returned r ->
  chosen (EnumAdapters1 sys) r.
Proof.
  unfold GetAdapter, throw_if_failed. destruct (FAILED _); [discriminate|].
  apply (enumerate_chosen (EnumAdapters1 sys) [] None).
  intros j b Hj. rewrite lookup_nil in Hj. discriminate.
Qed.

(** X2.  On the hardware path [GetAdapter] returns the null pointer
    exactly when the factory was created and no adapter that is usable
    (not software, able to create a D3D12 device) reports dedicated video
    memory above 0: with no adapter at all, with software adapters only,
    or with adapters that share the system memory. *)
Theorem GetAdapter_null (sys : dxgi) :
  GetAdapter false sys = Returned None <->
  FAILED (CreateDXGIFactory2 sys) = false /\
  forall b, b ∈ EnumAdapters1 sys -> usable b = true -> DedicatedVideoMemory b <= 0.
Proof.
  split.
  - unfold GetAdapter, throw_if_failed.
    destruct (FAILED _); [discriminate|]. intros Hrun.
    split; [reflexivity|].
    intros b Hb Hu. apply list_elem_of_lookup in Hb as [j Hj].
    apply (enumerate_chosen (EnumAdapters1 sys) [] None) in Hrun.
    + exact (Hrun j b Hj Hu).
    + intros j' b' Hj'. rewrite lookup_nil in Hj'. discriminate.
  - intros [Hf Hl]. unfold GetAdapter, throw_if_failed. rewrite Hf.
    apply enumerate_keeps. exact Hl.
Qed.

Lemma enumerate_thrown (l : list adapter) (m : Z) (cur : option adapter) (e : exn) :
  enumerate l m cur = Thrown e ->
  exists a, a ∈ l /\ usable a = true /\ m < DedicatedVideoMemory a /\
            FAILED (As_IDXGIAdapter4 a) = true /\ e = DeviceError (As_IDXGIAdapter4 a).
Proof.
  revert m cur. induction l as [|a l IH]; intros m cur; cbn [enumerate]; [discriminate|].
  fold (usable a).
  destruct (usable a && (m <? DedicatedVideoMemory a)) eqn:Hcond.
  - apply andb_true_iff in Hcond as [Hu Hlt]. apply Z.ltb_lt in Hlt.
    unfold throw_if_failed. destruct (FAILED (As_IDXGIAdapter4 a)) eqn:Hf.
    + intros Heq; inversion Heq; subst. exists a.
      split; [apply list_elem_of_here|]. repeat split; assumption.
    + intros Hrun. apply IH in Hrun as (b & Hb & Hub & Hmb & Hfb & He).
      exists b. split; [apply list_elem_of_further, Hb|].
      repeat split; try assumption. lia.
  - intros Hrun. apply IH in Hrun as (b & Hb & Hrest).
    exists b. split; [apply list_elem_of_further, Hb | exact Hrest].
Qed.

Lemma enumerate_returns (l : list adapter) (m : Z) (cur : option adapter) :
  (forall a, a ∈ l -> usable a = true -> FAILED (As_IDXGIAdapter4 a) = false) ->
  exists r, enumerate l m cur = Returned r.
Proof.
  intros Hl. destruct (enumerate l m cur) as [r| e |] eqn:Hrun.
  - exists r. reflexivity.
  - apply enumerate_thrown in Hrun as (a & Ha & Hu & _ & Hf & _).
    rewrite (Hl a Ha Hu) in Hf. discriminate.
  - exfalso. revert m cur Hrun. clear Hl.
    induction l as [|a l IH]; intros m cur; cbn [enumerate]; [discriminate|].
    destruct (_ && _); [|apply IH].
    unfold throw_if_failed. destruct (FAILED _); [discriminate | apply IH].
Qed.

(** X3.  [GetAdapter] fails in two ways only.  When the factory cannot be
    created it throws that HRESULT, on either path, before any adapter is
    looked at.  On the hardware path it otherwise throws only the failed
    HRESULT of the cast to [IDXGIAdapter4] of a usable adapter with
    dedicated memory above 0; so when the factory is there and that cast
    succeeds on every usable adapter, [GetAdapter] returns. *)
Theorem GetAdapter_errors (sys : dxgi) :
  (forall useWarp, FAILED (CreateDXGIFactory2 sys) = true ->
     GetAdapter useWarp sys = Thrown (DeviceError (CreateDXGIFactory2 sys))) /\
  (forall e, GetAdapter false sys = Thrown e ->
     e = DeviceError (CreateDXGIFactory2 sys) /\ FAILED (CreateDXGIFactory2 sys) = true \/
     exists a, a ∈ EnumAdapters1 sys /\ usable a = true /\ 0 < DedicatedVideoMemory a /\
               FAILED (As_IDXGIAdapter4 a) = true /\ e = DeviceError (As_IDXGIAdapter4 a)) /\
  (FAILED (CreateDXGIFactory2 sys) = false ->
   (forall a, a ∈ EnumAdapters1 sys -> usable a = true ->
              FAILED (As_IDXGIAdapter4 a) = false) ->
   exists r, GetAdapter false sys = Returned r).
Proof.
  split; [|split].
  - intros useWarp Hf. unfold GetAdapter, throw_if_failed. rewrite Hf. reflexivity.
  - intros e. unfold GetAdapter, throw_if_failed.
    destruct (FAILED (CreateDXGIFactory2 sys)).
    + intros Heq; inversion Heq. left. split; reflexivity.
    + intros Hrun. right. apply enumerate_thrown in Hrun. exact Hrun.
  - intros Hf Hl. unfold GetAdapter, throw_if_failed. rewrite Hf.
    apply enumerate_returns. exact Hl.
Qed.

(** ** Window placement *)

Lemma centred (d : Z) :
  0 <= Z.max 0 (Z.quot d 2) /\
  (0 <= d -> 0 <= d - 2 * Z.max 0 (Z.quot d 2) <= 1) /\
  (d < 0 -> Z.max 0 (Z.quot d 2) = 0).
Proof.
  pose proof (Z.quot_rem d 2 ltac:(lia)) as Hqr.
  split; [lia|]. split.
  - intros Hd. pose proof (Z.rem_bound_pos d 2 Hd ltac:(lia)). lia.
  - intros Hd. pose proof (Z.rem_bound_pos_neg d 2 ltac:(lia) ltac:(lia)). lia.
Qed.

(** X4.  Whenever the arithmetic of [CreateWindow] stays within [int]:
    the window is never placed left of or above the screen's origin; a
    window no wider than the screen lies on the screen with margins left
    and right that differ by at most one pixel, and a wider one starts at
    x = 0; likewise for the height.  The size passed on is the extent of
    the rectangle [AdjustWindowRect] left. *)
Theorem CreateWindow_centres (AdjustWindowRect : RECT -> RECT)
        (screenWidth screenHeight width height : Z) (p : placement) :
  CreateWindow AdjustWindowRect screenWidth screenHeight width height = Some p ->
  let r := AdjustWindowRect (mkRECT 0 0 (to_LONG width) (to_LONG height)) in
  windowWidth p = rect_right r - rect_left r /\
  windowHeight p = rect_bottom r - rect_top r /\
  0 <= windowX p /\ 0 <= windowY p /\
  (windowWidth p <= screenWidth ->
     0 <= (screenWidth - windowWidth p - windowX p) - windowX p <= 1) /\
  (screenWidth < windowWidth p -> windowX p = 0) /\
  (windowHeight p <= screenHeight ->
     0 <= (screenHeight - windowHeight p - windowY p) - windowY p <= 1) /\
  (screenHeight < windowHeight p -> windowY p = 0).
Proof.
  intros Hrun. cbv zeta. unfold CreateWindow, int_result in Hrun.
  set (r := AdjustWindowRect _) in *.
  repeat match type of Hrun with
         | context [if ?b then _ else _] => destruct b; cbn in Hrun; [|discriminate]
         end.
  inversion Hrun; subst p; clear Hrun. cbn [windowX windowY windowWidth windowHeight].
  pose proof (centred (screenWidth - (rect_right r - rect_left r))) as (Hx0 & Hx1 & Hx2).
  pose proof (centred (screenHeight - (rect_bottom r - rect_top r))) as (Hy0 & Hy1 & Hy2).
  repeat split; try reflexivity; try assumption; intros; lia.
Qed.

(** ** Render target views *)

Section RenderTargetViewFacts.
Context {resource : Type}.
Variable GetBuffer : Z -> HRESULT * resource.
Variable Offset : Z -> Z -> Z.

Lemma rtv_loop_step (fuel : nat) (i : Z) (rtvHandle sz : Z) (st : rtv_state) :
  0 <= i < g_NumFrames ->
  rtv_loop GetBuffer Offset (S fuel) i rtvHandle sz st =
  if FAILED (GetBuffer i).1 then (Thrown (DeviceError (GetBuffer i).1), st)
  else rtv_loop GetBuffer Offset fuel (i + 1) (Offset rtvHandle sz) sz
         (mkRtv (render_target_views st ++ [((GetBuffer i).2, rtvHandle)])
                (<[Z.to_nat i := Some (GetBuffer i).2]> (g_BackBuffers st))).
Proof.
  intros Hi. cbn [rtv_loop].
  destruct (Z.ltb_spec i g_NumFrames) as [_|Hge]; [|lia].
  destruct (GetBuffer i) as [hr b]. reflexivity.
Qed.

Lemma rtv_loop_done (fuel : nat) (rtvHandle sz : Z) (st : rtv_state) :
  rtv_loop GetBuffer Offset fuel g_NumFrames rtvHandle sz st = (Returned tt, st).
Proof. destruct fuel; reflexivity. Qed.

(** X5.  When [GetBuffer] succeeds for the three back buffers,
    [UpdateRenderTargetViews] creates exactly three render target views,
    in order, the view of buffer [i] at the heap's start moved on [i]
    times by the descriptor size, and leaves buffer [i] in
    [g_BackBuffers[i]]. *)
Theorem UpdateRenderTargetViews_all (sz heapStart : Z) (st : rtv_state) :
  (forall i, 0 <= i < g_NumFrames -> FAILED (GetBuffer i).1 = false) ->
  length (g_BackBuffers st) = Z.to_nat g_NumFrames ->
  UpdateRenderTargetViews GetBuffer Offset sz heapStart st =
  (Returned tt,
   mkRtv (render_target_views st ++
            [((GetBuffer 0).2, heapStart);
             ((GetBuffer 1).2, Offset heapStart sz);
             ((GetBuffer 2).2, Offset (Offset heapStart sz) sz)])
         [Some (GetBuffer 0).2; Some (GetBuffer 1).2; Some (GetBuffer 2).2]).
Proof.
  intros Hok Hlen. unfold UpdateRenderTargetViews.
  change (Z.to_nat g_NumFrames) with 3%nat in *.
  rewrite rtv_loop_step, (Hok 0) by (unfold g_NumFrames; lia).
  change (0 + 1) with 1.
  rewrite rtv_loop_step, (Hok 1) by (unfold g_NumFrames; lia).
  change (1 + 1) with 2.
  rewrite rtv_loop_step, (Hok 2) by (unfold g_NumFrames; lia).
  change (2 + 1) with g_NumFrames. rewrite rtv_loop_done.
  cbn [render_target_views g_BackBuffers]. rewrite <- !app_assoc. cbn [app].
  destruct (g_BackBuffers st) as [|b0 [|b1 [|b2 [|b3 l]]]]; try discriminate.
  reflexivity.
Qed.

(** X6.  When [GetBuffer] fails for buffer [k] after succeeding for the
    buffers before it, [UpdateRenderTargetViews] throws that HRESULT and
    stops there: it has created [k] views and stored the buffers below
    [k], and the entries of [g_BackBuffers] from [k] on are what they
    were. *)
Theorem UpdateRenderTargetViews_stops (sz heapStart : Z) (st : rtv_state) (k : Z) :
  0 <= k < g_NumFrames ->
  (forall i, 0 <= i < k -> FAILED (GetBuffer i).1 = false) ->
  FAILED (GetBuffer k).1 = true ->
  length (g_BackBuffers st) = Z.to_nat g_NumFrames ->
  exists st',
    UpdateRenderTargetViews GetBuffer Offset sz heapStart st =
    (Thrown (DeviceError (GetBuffer k).1), st') /\
    length (render_target_views st') = (length (render_target_views st) + Z.to_nat k)%nat /\
    (forall i, 0 <= i < k -> g_BackBuffers st' !! Z.to_nat i = Some (Some (GetBuffer i).2)) /\
    (forall j : nat, (Z.to_nat k <= j)%nat ->
       g_BackBuffers st' !! j = g_BackBuffers st !! j).
Proof.
  intros Hk Hok Hfail Hlen. unfold UpdateRenderTargetViews.
  change (Z.to_nat g_NumFrames) with 3%nat in *.
  destruct (g_BackBuffers st) as [|b0 [|b1 [|b2 [|b3 l]]]] eqn:Hbb; try discriminate.
  assert (Hcases : k = 0 \/ k = 1 \/ k = 2) by (unfold g_NumFrames in Hk; lia).
  destruct Hcases as [-> | [-> | ->]].
  - rewrite rtv_loop_step, Hfail by (unfold g_NumFrames; lia).
    eexists. split; [reflexivity|]. split; [cbn; lia|]. split; [intros; lia|].
    intros j _. rewrite Hbb. reflexivity.
  - rewrite rtv_loop_step, (Hok 0) by (unfold g_NumFrames; lia).
    change (0 + 1) with 1.
    rewrite rtv_loop_step, Hfail by (unfold g_NumFrames; lia).
    eexists. split; [reflexivity|]. cbn [render_target_views g_BackBuffers].
    rewrite Hbb. split; [rewrite length_app; reflexivity|]. split.
    + intros i Hi. replace i with 0 by lia. reflexivity.
    + intros [|j] Hj; [cbn in Hj; lia | reflexivity].
  - rewrite rtv_loop_step, (Hok 0) by (unfold g_NumFrames; lia).
    change (0 + 1) with 1.
    rewrite rtv_loop_step, (Hok 1) by (unfold g_NumFrames; lia).
    change (1 + 1) with 2.
    rewrite rtv_loop_step, Hfail by (unfold g_NumFrames; lia).
    eexists. split; [reflexivity|]. cbn [render_target_views g_BackBuffers].
    rewrite Hbb. split; [rewrite !length_app; cbn; lia|]. split.
    + intros i Hi. assert (Hi' : i = 0 \/ i = 1) by lia.
      destruct Hi' as [-> | ->]; reflexivity.
    + intros [|[|j]] Hj; [cbn in Hj; lia.. | reflexivity].
Qed.

End RenderTargetViewFacts.

(** ** More on the command line *)

Lemma with_flags_cons (a : string) (l : list string) (g : Globals) :
  with_flags (a :: l) g =
  with_flags l (if is_warp_flag a then set_UseWARP true g else g).
Proof.
  unfold with_flags. cbn [existsb].
  destruct (is_warp_flag a), (existsb is_warp_flag l); reflexivity.
Qed.

Lemma parse_keeps_refl (g : Globals) : parse_keeps g g.
Proof. repeat split; auto. Qed.

Lemma parse_keeps_trans (g1 g2 g3 : Globals) :
  parse_keeps g1 g2 -> parse_keeps g2 g3 -> parse_keeps g1 g3.
Proof.
  intros (H1 & H2 & H3 & H4 & H5 & H6) (K1 & K2 & K3 & K4 & K5 & K6).
  repeat split; try congruence; [auto|].
  destruct K6 as [K6|K6]; [rewrite K6; exact H6 | right; exact K6].
Qed.

Lemma parse_keeps_width (z : Z) (g : Globals) :
  parse_keeps g (set_ClientWidth (wrap32 z) g).
Proof.
  repeat split; auto. right. cbn. unfold wrap32. apply Z.mod_pos_bound. lia.
Qed.

Lemma parse_keeps_warp (g : Globals) : parse_keeps g (set_UseWARP true g).
Proof. repeat split; auto. Qed.

Section MoreCommandLineFacts.
Variable wcstol : string -> Z.

Lemma and_then_keeps (g : Globals) (p : parse) (k : nat -> Globals -> parse) :
  parse_keeps g (parsed_globals p) ->
  (forall i g1, parse_keeps g g1 -> parse_keeps g (parsed_globals (k i g1))) ->
  parse_keeps g (parsed_globals (and_then p k)).
Proof. destruct p as [i g1|g1]; intros Hp Hk; cbn; [apply Hk|]; exact Hp. Qed.

Lemma loop_body_keeps (argv : list string) (i : nat) (g0 g : Globals) :
  parse_keeps g0 g ->
  parse_keeps g0 (parsed_globals (loop_body wcstol argv i g)).
Proof.
  intros Hg. unfold loop_body.
  apply and_then_keeps.
  { unfold width_option, arg. destruct (argv !! i); [|exact Hg].
    destruct (_ || _); [|exact Hg]. destruct (argv !! S i); [|exact Hg].
    eapply parse_keeps_trans; [exact Hg | apply parse_keeps_width]. }
  intros i1 g1 Hg1. apply and_then_keeps.
  { unfold height_option, arg. destruct (argv !! i1); [|exact Hg1].
    destruct (_ || _); [|exact Hg1]. destruct (argv !! S i1); [|exact Hg1].
    eapply parse_keeps_trans; [exact Hg1 | apply parse_keeps_width]. }
  intros i2 g2 Hg2.
  unfold warp_option, arg. destruct (argv !! i2); [|exact Hg2].
  destruct (_ || _); [|exact Hg2].
  eapply parse_keeps_trans; [exact Hg2 | apply parse_keeps_warp].
Qed.

Lemma parse_loop_keeps (fuel : nat) (argv : list string) (i : nat) (g0 g : Globals) :
  parse_keeps g0 g ->
  parse_keeps g0 (parsed_globals (parse_loop wcstol fuel argv i g)).
Proof.
  revert i g. induction fuel as [|fuel IH]; intros i g Hg; cbn [parse_loop];
    destruct (i <? length argv)%nat; try exact Hg.
  apply and_then_keeps; [apply loop_body_keeps, Hg|].
  intros i' g' Hg'. apply IH, Hg'.
Qed.

(** X10.  Whatever the command line, and also when the run stops at a
    read past the last argument, [ParseCommandLineArgs] leaves the fence
    counter, the per-frame fence values and the back buffer index as they
    were, never clears [g_UseWARP], and leaves in [g_ClientWidth] either
    what was there or a value of 32 bits. *)
Theorem ParseCommandLineArgs_touches_width_and_warp_only
        (argv : list string) (g : Globals) :
  let g' := parsed_globals (ParseCommandLineArgs wcstol argv g) in
  g_CurrentBackBufferIndex g' = g_CurrentBackBufferIndex g /\
  g_FenceValue g' = g_FenceValue g /\
  g_FrameFenceValues g' = g_FrameFenceValues g /\
  (g_UseWARP g = true -> g_UseWARP g' = true) /\
  (g_ClientWidth g' = g_ClientWidth g \/ 0 <= g_ClientWidth g' < 2 ^ 32).
Proof.
  destruct (parse_loop_keeps (length argv) argv 0 g g (parse_keeps_refl g))
    as (_ & H2 & H3 & H4 & H5 & H6).
  cbv zeta. unfold ParseCommandLineArgs. repeat split; assumption.
Qed.

Lemma loop_body_plain (argv : list string) (i : nat) (a : string) (g : Globals) :
  argv !! i = Some a ->
  is_size_option a = false ->
  loop_body wcstol argv i g = Go i (if is_warp_flag a then set_UseWARP true g else g).
Proof.
  intros Ha Hplain. apply orb_false_iff in Hplain as [Hw Hh].
  unfold is_width_option in Hw. unfold is_height_option in Hh.
  unfold loop_body, width_option, height_option, warp_option, arg.
  rewrite Ha, Hw. cbn [and_then]. rewrite Ha, Hh. cbn [and_then]. rewrite Ha.
  fold (is_warp_flag a). destruct (is_warp_flag a); reflexivity.
Qed.

(** The loop over a stretch of arguments none of which is a size option:
    one argument per round, only the flags among them take effect. *)
Lemma parse_loop_plain (pre rest : list string) (n fuel i : nat) (g : Globals) :
  (forall a, a ∈ pre -> is_size_option a = false) ->
  (i + n = length pre)%nat ->
  parse_loop wcstol (n + fuel) (pre ++ rest) i g =
  parse_loop wcstol fuel (pre ++ rest) (length pre) (with_flags (drop i pre) g).
Proof.
  intros Hplain. revert i g. induction n as [|n IH]; intros i g Hn.
  - replace i with (length pre) by lia. rewrite drop_all. reflexivity.
  - assert (Hi : (i < length pre)%nat) by lia.
    destruct (lookup_lt_is_Some_2 pre i Hi) as [a Ha].
    cbn [Nat.add parse_loop].
    destruct (Nat.ltb_spec i (length (pre ++ rest))) as [_|Hge];
      [|rewrite length_app in Hge; lia].
    rewrite (loop_body_plain _ i a) by
      (try (apply lookup_app_l_Some, Ha);
       apply Hplain; eapply list_elem_of_lookup_2; exact Ha).
    cbn [and_then]. rewrite IH by lia.
    rewrite (drop_S pre a i Ha), with_flags_cons. reflexivity.
Qed.

(** X7.  A command line without [-w], [--width], [-h] and [--height] is
    read to its end, one argument per round, and changes nothing but
    [g_UseWARP], which it sets exactly when [-warp] or [--warp] is among
    the arguments. *)
Theorem ParseCommandLineArgs_flags_only (argv : list string) (g : Globals) :
  (forall a, a ∈ argv -> is_size_option a = false) ->
  ParseCommandLineArgs wcstol argv g =
  Go (length argv) (if existsb is_warp_flag argv then set_UseWARP true g else g).
Proof.
  intros Hplain. unfold ParseCommandLineArgs.
  pose proof (parse_loop_plain argv [] (length argv) 0 0 g Hplain eq_refl) as Hrun.
  rewrite app_nil_r, Nat.add_0_r in Hrun. rewrite Hrun.
  cbn [parse_loop]. rewrite Nat.ltb_irrefl. reflexivity.
Qed.

(** X8.  A size option that comes last, after arguments none of which is a
    size option, makes the parser read [argv] past its end: the run stops
    there, with the flags before it applied and the width not written. *)
Theorem ParseCommandLineArgs_trailing_option
        (pre : list string) (o : string) (g : Globals) :
  (forall a, a ∈ pre -> is_size_option a = false) ->
  is_size_option o = true ->
  ParseCommandLineArgs wcstol (pre ++ [o]) g = PastEnd (with_flags pre g).
Proof.
  intros Hplain Ho. unfold ParseCommandLineArgs.
  rewrite length_app. cbn [length].
  rewrite (parse_loop_plain pre [o] (length pre) 1 0 g Hplain eq_refl).
  cbn [parse_loop drop].
  destruct (Nat.ltb_spec (length pre) (length (pre ++ [o]))) as [_|Hge];
    [|rewrite length_app in Hge; cbn in Hge; lia].
  assert (Hat : (pre ++ [o]) !! length pre = Some o).
  { rewrite lookup_app_r by lia. rewrite Nat.sub_diag. reflexivity. }
  assert (Hnext : (pre ++ [o]) !! S (length pre) = None).
  { apply lookup_ge_None. rewrite length_app. cbn. lia. }
  unfold loop_body, width_option, height_option, arg. rewrite Hat.
  fold (is_width_option o). fold (is_height_option o).
  unfold is_size_option in Ho.
  destruct (is_width_option o); cbn [orb] in Ho.
  - rewrite Hnext. reflexivity.
  - cbn [and_then]. unfold is_height_option in Ho. rewrite Hat, Ho, Hnext. reflexivity.
Qed.

(** X9.  A size option with its value at the end of the command line,
    after arguments none of which is a size option: the value, read by
    [wcstol] and cut to 32 bits, goes to [g_ClientWidth], for the height
    options as for the width options, and the run ends at [argc].  The
    value is then still looked at as a flag: a value that is [-warp] or
    [--warp] sets [g_UseWARP].  (The value of a width option must not be
    a height option, which would take a value of its own.) *)
Theorem ParseCommandLineArgs_option_value
        (pre : list string) (o v : string) (g : Globals) :
  (forall a, a ∈ pre -> is_size_option a = false) ->
  is_size_option o = true ->
  (is_width_option o = true -> is_height_option v = false) ->
  ParseCommandLineArgs wcstol (pre ++ [o; v]) g =
  Go (length pre + 2)
     (let g1 := set_ClientWidth (wrap32 (wcstol v)) (with_flags pre g) in
      if is_warp_flag v then set_UseWARP true g1 else g1).
Proof.
  intros Hplain Ho Hv. unfold ParseCommandLineArgs.
  rewrite length_app. cbn [length].
  rewrite (parse_loop_plain pre [o; v] (length pre) 2 0 g Hplain eq_refl).
  cbn [parse_loop drop].
  destruct (Nat.ltb_spec (length pre) (length (pre ++ [o; v]))) as [_|Hge];
    [|rewrite length_app in Hge; cbn in Hge; lia].
  assert (Hat : (pre ++ [o; v]) !! length pre = Some o).
  { rewrite lookup_app_r by lia. rewrite Nat.sub_diag. reflexivity. }
  assert (Hnext : (pre ++ [o; v]) !! S (length pre) = Some v).
  { rewrite lookup_app_r by lia.
    replace (S (length pre) - length pre)%nat with 1%nat by lia. reflexivity. }
  assert (Hend : (S (S (length pre)) <? length (pre ++ [o; v]))%nat = false).
  { apply Nat.ltb_ge. rewrite length_app. cbn. lia. }
  assert (Hlen : S (S (length pre)) = (length pre + 2)%nat) by lia.
  unfold loop_body, width_option, height_option, warp_option, arg. rewrite Hat.
  fold (is_width_option o). fold (is_height_option o).
  unfold is_size_option in Ho.
  destruct (is_width_option o) eqn:Hw; cbn [orb] in Ho.
  - rewrite Hnext. cbn [and_then]. rewrite Hnext.
    pose proof (Hv eq_refl) as Hv'. unfold is_height_option in Hv'. rewrite Hv'.
    cbn [and_then]. rewrite Hnext.
    fold (is_warp_flag v). cbv zeta.
    destruct (is_warp_flag v); cbn [and_then]; rewrite Hend, Hlen; reflexivity.
  - cbn [and_then]. unfold is_height_option in Ho. rewrite Hat, Ho, Hnext.
    cbn [and_then]. rewrite Hnext.
    fold (is_warp_flag v). cbv zeta.
    destruct (is_warp_flag v); cbn [and_then]; rewrite Hend, Hlen; reflexivity.
Qed.

End MoreCommandLineFacts.

(** ** More on the fence helpers *)

Section MoreHelperFacts.
Context {W : Type} {E : Engine W}.

Lemma to_DWORD_periodic (d k : Z) : to_DWORD (d + k * 2 ^ 32) = to_DWORD d.
Proof. unfold to_DWORD, wrap32. apply Z_mod_plus_full. Qed.

Lemma WaitForFenceValue_by_DWORD (v : Z) (h : HANDLE) (d d' : Z) (s : State W) :
  to_DWORD d = to_DWORD d' ->
  WaitForFenceValue v h d s = WaitForFenceValue v h d' s.
Proof. intros Hd. rewrite !WaitForFenceValue_unfold, Hd. reflexivity. Qed.

(** X11.  [WaitForFenceValue] sees of its duration only the count of
    milliseconds modulo 2^32: durations that differ by a multiple of 2^32
    milliseconds give the same wait.  So a duration of 2^32 ms (some 49.7
    days) waits like one of 0 ms, and a duration of -1 ms waits like the
    default one, without deadline. *)
Theorem WaitForFenceValue_duration_mod_2_32 (v : Z) (h : HANDLE) (d k : Z) (s : State W) :
  WaitForFenceValue v h (d + k * 2 ^ 32) s = WaitForFenceValue v h d s /\
  WaitForFenceValue v h (d mod 2 ^ 32) s = WaitForFenceValue v h d s /\
  WaitForFenceValue v h (2 ^ 32) s = WaitForFenceValue v h 0 s /\
  WaitForFenceValue v h (-1) s = WaitForFenceValue v h milliseconds_max s.
Proof.
  split; [|split; [|split]]; apply WaitForFenceValue_by_DWORD.
  - apply to_DWORD_periodic.
  - unfold to_DWORD, wrap32. apply Z.mod_mod. lia.
  - reflexivity.
  - reflexivity.
Qed.

Lemma WaitForFenceValue_signals_nothing (v : Z) (h : HANDLE) (d : Z) (s : State W) :
  exists l, calls (WaitForFenceValue v h d s).2 = calls s ++ l /\ signal_values l = [].
Proof.
  rewrite WaitForFenceValue_unfold; cbn zeta.
  destruct (_ <? _); [destruct (FAILED _);
                      [|destruct (Os_WaitForSingleObject _ _ _) as [[x w]|]]|];
    cbn [snd calls log]; rewrite <- ?app_assoc; eexists; split; reflexivity.
Qed.

(** What one operation hands to the command queue: nothing, with the
    counter kept, or the successor of the counter, which the counter then
    holds. *)
Lemma run_op_signal_values (o : op) (s : State W) :
  exists l,
    calls (run_op o s).2 = calls s ++ l /\
    (signal_values l = [] /\ counter (run_op o s).2 = counter s \/
     signal_values l = [wrap64 (counter s + 1)] /\
     counter (run_op o s).2 = wrap64 (counter s + 1)).
Proof.
  destruct o as [|v h d|h]; cbn [run_op].
  - destruct (Signal_calls s) as [hr Hl]. pose proof (Signal_counter s) as Hc.
    unfold bind. destruct (Signal s) as [[v| e |] s1]; cbn [snd ret] in *;
      (eexists; split; [exact Hl|]; right; split; [reflexivity | exact Hc]).
  - destruct (WaitForFenceValue_signals_nothing v h d s) as (l & Hl & Hv).
    exists l. split; [exact Hl|]. left. split; [exact Hv|].
    unfold counter. rewrite WaitForFenceValue_globals. reflexivity.
  - destruct (Signal_calls s) as [hr Hl]. pose proof (Flush_counter h s) as Hc.
    rewrite Flush_unfold in *.
    destruct (Signal s) as [[v| e |] s1]; cbn [snd] in *;
      try (eexists; split; [exact Hl|]; right; split; [reflexivity | exact Hc]).
    destruct (WaitForFenceValue_signals_nothing v h milliseconds_max s1)
      as (l & Hl' & Hv).
    exists ([CallSignal (wrap64 (counter s + 1)) hr] ++ l).
    split; [rewrite Hl', Hl, <- app_assoc; reflexivity|].
    right. split; [|exact Hc].
    unfold signal_values in *. rewrite omap_app, Hv. reflexivity.
Qed.

(** X12.  In any sequence of Signal, WaitForFenceValue and Flush
    operations that does not take the counter [c] past 2^64 - 1, the
    values handed to [commandQueue->Signal] are, in the order of the
    calls, [c+1, c+2, ..., c+m]: consecutive, none twice and none left
    out, also when the sequence ends by an exception or in a wait; and
    the counter ends at [c+m], the last value handed over. *)
Theorem signalled_values_are_consecutive (ops : list op) (s : State W) :
  0 <= counter s ->
  counter s + Z.of_nat (length ops) <= UINT64_MAX ->
  exists (l : list call) (m : nat),
    calls (run_ops ops s).2 = calls s ++ l /\
    (m <= length ops)%nat /\
    signal_values l = (fun i => counter s + 1 + Z.of_nat i) <$> seq 0 m /\
    counter (run_ops ops s).2 = counter s + Z.of_nat m.
Proof.
  revert s. induction ops as [|o ops IH]; intros s H0 Hn; cbn [run_ops length] in *.
  - exists [], 0%nat. cbn. rewrite app_nil_r. repeat split; [lia..].
  - destruct (run_op_signal_values o s) as (l1 & Hl1 & Hcase).
    assert (Hstep : exists m1 : nat,
               (m1 <= 1)%nat /\
               signal_values l1 = (fun i => counter s + 1 + Z.of_nat i) <$> seq 0 m1 /\
               counter (run_op o s).2 = counter s + Z.of_nat m1).
    { destruct Hcase as [[Hv Hc] | [Hv Hc]].
      - exists 0%nat. split; [lia|]. split; [exact Hv | lia].
      - rewrite wrap64_small in Hv, Hc by lia.
        exists 1%nat. split; [lia|]. split; [|lia].
        rewrite Hv. cbn [seq fmap list_fmap].
        replace (counter s + 1 + Z.of_nat 0) with (counter s + 1) by lia.
        reflexivity. }
    destruct Hstep as (m1 & Hm1 & Hv1 & Hc1).
    unfold bind.
    destruct (run_op o s) as [[[]| e |] s1]; cbn [snd] in *;
      try (exists l1, m1; split; [exact Hl1|]; split; [lia|]; split; assumption).
    destruct (IH s1 ltac:(lia) ltac:(lia)) as (l2 & m2 & Hl2 & Hm2 & Hv2 & Hc2).
    exists (l1 ++ l2), (m1 + m2)%nat.
    split; [rewrite Hl2, Hl1, <- app_assoc; reflexivity|].
    split; [lia|]. split; [|lia].
    unfold signal_values in *. rewrite omap_app, Hv1, Hv2.
    rewrite seq_app, fmap_app. f_equal. cbn [Nat.add].
    replace (seq m1 m2) with (Nat.add m1 <$> seq 0 m2)
      by (rewrite fmap_add_seq, Nat.add_0_r; reflexivity).
    rewrite <- list_fmap_compose.
    apply list_fmap_ext. intros i x _. cbn. lia.
Qed.

End MoreHelperFacts.

(** ** These theorems at concrete inputs *)

Lemma GetAdapter_picks_most_memory_witness :
  GetAdapter false demo_dxgi = Returned (Some (mkAdapter 0 8192 S_OK S_OK)) /\
  chosen demo_adapters (Some (mkAdapter 0 8192 S_OK S_OK)).
Proof.
  assert (Hrun : GetAdapter false demo_dxgi = Returned (Some (mkAdapter 0 8192 S_OK S_OK)))
    by (vm_compute; reflexivity).
  split; [exact Hrun|].
  apply (GetAdapter_picks_most_memory demo_dxgi _ Hrun).
Defined.

Lemma GetAdapter_null_witness :
  GetAdapter false integrated_dxgi = Returned None.
Proof.
  apply (proj2 (GetAdapter_null integrated_dxgi)).
  split; [reflexivity|].
  intros b Hb _. in_calls Hb ltac:(subst; vm_compute; discriminate).
Defined.

Lemma GetAdapter_errors_witness :
  GetAdapter true broken_dxgi = Thrown (DeviceError DXGI_ERROR_DEVICE_REMOVED) /\
  exists r, GetAdapter false demo_dxgi = Returned r.
Proof.
  destruct (GetAdapter_errors broken_dxgi) as (Hfac & _ & _).
  destruct (GetAdapter_errors demo_dxgi) as (_ & _ & Hret).
  split; [apply (Hfac true); reflexivity|].
  apply Hret; [reflexivity|].
  intros a Ha _. in_calls Ha ltac:(subst; reflexivity).
Defined.

Lemma CreateWindow_centres_witness :
  CreateWindow framed 1920 1080 1024 768 = Some (mkPlacement 440 136 1040 807) /\
  0 <= (1920 - 1040 - 440) - 440 <= 1.
Proof.
  assert (Hrun : CreateWindow framed 1920 1080 1024 768 =
                 Some (mkPlacement 440 136 1040 807)) by (vm_compute; reflexivity).
  split; [exact Hrun|].
  destruct (CreateWindow_centres framed 1920 1080 1024 768 _ Hrun)
    as (_ & _ & _ & _ & Hx & _).
  apply Hx. vm_compute. discriminate.
Defined.

Lemma UpdateRenderTargetViews_all_witness :
  UpdateRenderTargetViews every_buffer Z.add 32 4096 no_views =
  (Returned tt,
   mkRtv [(100, 4096); (101, 4128); (102, 4160)] [Some 100; Some 101; Some 102]).
Proof.
  rewrite (UpdateRenderTargetViews_all every_buffer Z.add 32 4096 no_views);
    [reflexivity | intros i _; reflexivity | reflexivity].
Defined.

Lemma UpdateRenderTargetViews_stops_witness :
  exists st',
    UpdateRenderTargetViews no_buffer_1 Z.add 32 4096 no_views =
    (Thrown (DeviceError DXGI_ERROR_DEVICE_REMOVED), st') /\
    g_BackBuffers st' !! 0%nat = Some (Some 100) /\
    g_BackBuffers st' !! 1%nat = Some None.
Proof.
  destruct (UpdateRenderTargetViews_stops no_buffer_1 Z.add 32 4096 no_views 1)
    as (st' & Hrun & _ & Hlow & Hhigh).
  - vm_compute. split; [discriminate | reflexivity].
  - intros i Hi. replace i with 0 by lia. reflexivity.
  - reflexivity.
  - reflexivity.
  - exists st'. split; [exact Hrun|]. split.
    + apply (Hlow 0). lia.
    + rewrite (Hhigh 1%nat) by (vm_compute; lia). reflexivity.
Defined.

Lemma ParseCommandLineArgs_flags_only_witness :
  ParseCommandLineArgs decimal ["prog"; "--warp"; "scene"] initial_globals =
  Go 3 (set_UseWARP true initial_globals).
Proof.
  rewrite (ParseCommandLineArgs_flags_only decimal ["prog"; "--warp"; "scene"]);
    [reflexivity|].
  intros a Ha. in_calls Ha ltac:(subst; reflexivity).
Defined.

Lemma ParseCommandLineArgs_trailing_option_witness :
  ParseCommandLineArgs decimal (["prog"] ++ ["-w"]) initial_globals =
  PastEnd initial_globals.
Proof.
  rewrite (ParseCommandLineArgs_trailing_option decimal ["prog"] "-w");
    [reflexivity | | reflexivity].
  intros a Ha. in_calls Ha ltac:(subst; reflexivity).
Defined.

Lemma ParseCommandLineArgs_option_value_witness :
  ParseCommandLineArgs decimal (["prog"] ++ ["-h"; "600"]) initial_globals =
  Go 3 (set_ClientWidth 600 initial_globals).
Proof.
  rewrite (ParseCommandLineArgs_option_value decimal ["prog"] "-h" "600");
    [reflexivity | | reflexivity | discriminate].
  intros a Ha. in_calls Ha ltac:(subst; reflexivity).
Defined.

Lemma signalled_values_are_consecutive_witness :
  exists (l : list call) (m : nat),
    calls (run_ops [OpSignal; OpFlush the_event; OpWaitForFenceValue 1 the_event 1]
                   (start steady_gpu)).2 = calls (start steady_gpu) ++ l /\
    (m <= 3)%nat /\
    signal_values l = (fun i => 0 + 1 + Z.of_nat i) <$> seq 0 m /\
    counter (run_ops [OpSignal; OpFlush the_event; OpWaitForFenceValue 1 the_event 1]
                     (start steady_gpu)).2 = 0 + Z.of_nat m.
Proof.
  apply (signalled_values_are_consecutive
           [OpSignal; OpFlush the_event; OpWaitForFenceValue 1 the_event 1]
           (start steady_gpu)); vm_compute; discriminate.
Defined.

Lemma ParseCommandLineArgs_touches_width_and_warp_only_witness :
  g_UseWARP (parsed_globals
               (ParseCommandLineArgs decimal ["prog"; "-w"; "800"]
                                     (set_UseWARP true initial_globals))) = true.
Proof.
  destruct (ParseCommandLineArgs_touches_width_and_warp_only
              decimal ["prog"; "-w"; "800"] (set_UseWARP true initial_globals))
    as (_ & _ & _ & Hwarp & _).
  apply Hwarp. reflexivity.
Defined.
